(** * scale.h: fixed-point numbers and the N-dimensional scaling iterator

    A shallow embedding of [cc0::scale] (file [scale.h]) and the properties
    of it that are stated in the specification.

    Conventions of the embedding:
    - a signed [n]-bit integer is a [Z] in [[-2^(n-1), 2^(n-1))]; every
      arithmetic result is brought back into that interval by [wrap n]
      (two's complement wrap-around), also where C++ leaves a signed
      overflow undefined;
    - [Point<T,D>] is a list of [D] coordinates, indexed with stdpp's list
      lookup and updated with its insert;
    - the processor is a state transformer on the state it captures;
    - [dimensions] is at least 1: the templates do not instantiate at 0. *)

From Stdlib Require Import ZArith Lia List.
From stdpp Require Import base list.

Local Open Scope Z_scope.

(** ** Integer widths ([internal::intinfo]) *)

Module intinfo.

(** The four specialisations of [intinfo<bits>]. *)
Inductive width : Set := I8 | I16 | I32 | I64.

Definition bits (w : width) : Z :=
  match w with I8 => 8 | I16 => 16 | I32 => 32 | I64 => 64 end.

(** [intinfo<bits>::prev] and [intinfo<bits>::next]; the ends alias
    themselves. *)
Definition prev (w : width) : width :=
  match w with I8 => I8 | I16 => I8 | I32 => I16 | I64 => I32 end.

Definition next (w : width) : width :=
  match w with I8 => I16 | I16 => I32 | I32 => I64 | I64 => I64 end.

End intinfo.

(** Two's complement wrap-around of [z] to [n] bits. *)
Definition wrap (n : Z) (z : Z) : Z :=
  (z + 2 ^ (n - 1)) mod 2 ^ n - 2 ^ (n - 1).

(** Wrap-around of an unsigned [n]-bit integer. *)
Definition wrapu (n : Z) (z : Z) : Z := z mod 2 ^ n.

(** [z] is a value of the signed [n]-bit integer type. *)
Definition in_range (n : Z) (z : Z) : Prop :=
  - 2 ^ (n - 1) <= z < 2 ^ (n - 1).

(** Operands narrower than [int] are promoted to [int] before any
    arithmetic: an expression over a [w]-bit type is evaluated in
    [arith_bits w] bits. *)
Definition arith_bits (w : intinfo.width) : Z := Z.max (intinfo.bits w) 32.

(** ** Fixed-point numbers ([fixed<bits,precision>]) *)

Record fixed (bits : intinfo.width) (precision : Z) : Type :=
  Fixed { value_bits : Z }.

Arguments Fixed {bits precision} _.
Arguments value_bits {bits precision} _.

Section FixedOps.

Context {bits : intinfo.width} {precision : Z}.

Abbreviation fx := (fixed bits precision).
Abbreviation W := (intinfo.bits bits).

(** [fixed(int_t n) : value_bits(n << precision)] *)
Definition of_int (n : Z) : fx :=
  Fixed (wrap W (wrap (arith_bits bits) (Z.shiftl n precision))).

(** [operator int_t() const { return value_bits >> precision; }] *)
Definition to_int (x : fx) : Z :=
  Z.shiftr (value_bits x) precision.

(** [operator+=] *)
Definition add_assign (l r : fx) : fx :=
  Fixed (wrap W (value_bits l + value_bits r)).

(** [operator-=] *)
Definition sub_assign (l r : fx) : fx :=
  Fixed (wrap W (value_bits l - value_bits r)).

(** [operator*=]: the product is stored in a variable of the next wider
    type, shifted back and stored in [value_bits]. *)
Definition mul_assign (l r : fx) : fx :=
  let n := wrap (intinfo.bits (intinfo.next bits))
                (wrap (arith_bits (intinfo.next bits))
                      (value_bits l * value_bits r)) in
  Fixed (wrap W (Z.shiftr n precision)).

(** [operator/=]: the dividend is cast to the next wider type and
    shifted; C++ division truncates toward zero ([Z.quot]). Two divisions
    have no result, and the division instruction faults on both: a
    division by zero, and the division of the least value of the type the
    division is evaluated in by -1, whose quotient does not fit that
    type. Both are [None]. *)
Definition div_assign (l r : fx) : option fx :=
  let wide := arith_bits (intinfo.next bits) in
  let n := wrap wide (Z.shiftl (value_bits l) precision) in
  if value_bits r =? 0 then None
  else if (n =? - 2 ^ (wide - 1)) && (value_bits r =? -1) then None
  else Some (Fixed (wrap W (wrap wide (Z.quot n (value_bits r))))).

End FixedOps.

(** [typedef fixed<32,15> fixed32_t] *)
Abbreviation fixed32_t := (fixed intinfo.I32 15).

#[export] Instance fixed_inhabited {bits precision} :
  Inhabited (fixed bits precision) := populate (Fixed 0).

(** [static constexpr int32_t SCALE = (int32_t(0x7fff) << 15) / 9999] *)
Definition SCALE : Z :=
  wrap 32 (Z.quot (wrap 32 (Z.shiftl 32767 15)) 9999).

(** [fixed32(int16_t i, uint16_t d)] *)
Definition fixed32 (i : Z) (d : Z) : fixed32_t :=
  let f : fixed32_t := of_int i in
  let d :=
    if d <? 10 then wrapu 16 (d * 1000)
    else if d <? 100 then wrapu 16 (d * 100)
    else if d <? 1000 then wrapu 16 (d * 10)
    else d in
  Fixed (wrap 32 (value_bits f + Z.shiftr (wrap 32 (d * SCALE)) 15)).

(** The free operators [operator+], [operator-], [operator*] and
    [operator/] apply the compound assignment to a copy of the left
    operand and return it. *)
Definition add {bits precision} (l r : fixed bits precision) := add_assign l r.
Definition sub {bits precision} (l r : fixed bits precision) := sub_assign l r.
Definition mul {bits precision} (l r : fixed bits precision) := mul_assign l r.
Definition div {bits precision} (l r : fixed bits precision) := div_assign l r.

(** ** Geometric primitives ([Point<type_t,dimensions>], [Area]) *)

(** [type_t e[dimensions]]: the coordinates, axis 0 first. Reading an
    axis is [p !!! i], writing it is [<[i:=v]> p]; both are only used
    below the length of the list, where they are the array accesses of
    the source. *)
Abbreviation Point T := (list T).

Record Area (T : Type) : Type := mkArea { a : Point T; b : Point T }.

Arguments mkArea {T} _ _.
Arguments a {T} _.
Arguments b {T} _.

(** ** Comparison of coordinates

    [int32_t] is compared as an integer. [fixed] declares no comparison
    operator: [x < y], [x > y] and [x == y] on two [fixed] values convert
    both through [operator int_t] and compare the integer parts. *)

Class Comparable (T : Type) : Type :=
  { less : T -> T -> bool; greater : T -> T -> bool; equal : T -> T -> bool }.

#[export] Instance int_comparable : Comparable Z :=
  {| less := Z.ltb; greater := Z.gtb; equal := Z.eqb |}.

#[export] Instance fixed_comparable {bits precision} :
  Comparable (fixed bits precision) :=
  {| less x y := to_int x <? to_int y;
     greater x y := to_int x >? to_int y;
     equal x y := to_int x =? to_int y |}.

(** ** Outcomes

    The source has no error path. The embedding makes two events
    observable so that their absence can be stated: an integer division
    by zero, and a loop that is still running when its fuel is used up. *)

Inductive error : Set := DivisionByZero | OutOfFuel.

Inductive result (A : Type) : Type :=
| Ok (x : A)
| Err (e : error).

Arguments Ok {A} _.
Arguments Err {A} _.

(** What the body of a loop inside a [void] function does next. *)
Inductive control (A : Type) : Type :=
| Continue (x : A)
| Return
| Fail (e : error).

Arguments Continue {A} _.
Arguments Return {A}.
Arguments Fail {A} _.

(** [for (uint32_t i = 0; i < dimensions; ++i) body], over the indices
    still to visit; a [return] in the body leaves the loop. *)
Fixpoint for_each {L : Type} (body : nat -> L -> control L)
    (indices : list nat) (l : L) : control L :=
  match indices with
  | [] => Continue l
  | i :: rest =>
    match body i l with
    | Continue l' => for_each body rest l'
    | stop => stop
    end
  end.

Module internal.

(** [swap(a, b)] applied to the two endpoints of axis [i] of an area. *)
Definition swap {T} `{Inhabited T} (i : nat) (r : Area T) : Area T :=
  let t := a r !!! i in
  mkArea (<[i := b r !!! i]> (a r)) (<[i := t]> (b r)).

(** [min(a, b) = a < b ? a : b] *)
Definition min {T} `{Comparable T} (x y : T) : T :=
  if less x y then x else y.

(** [max(a, b) = a > b ? a : b] *)
Definition max {T} `{Comparable T} (x y : T) : T :=
  if greater x y then x else y.

Section Iterator.

(** [state] is what the processor captures and changes. *)
Context {state : Type}.
Variable processor : Point Z -> Point fixed32_t -> state -> state.
Variable dst_area : Area Z.
Variable src_start src_delta : Point fixed32_t.

(** The two index points are passed by reference through all levels of
    the recursion; the cursor threads them with the processor's state. *)
Record cursor : Type :=
  Cursor { dst_index : Point Z;
           src_index : Point fixed32_t;
           captured : state }.

(** The [for] statement of [operator()] from its condition onwards:
    test [dst_index[index] < dst_area.b[index]], run the body, then
    [++dst_index[index], src_index[index] += src_delta[index]]. *)
Fixpoint for_axis (index : nat) (body : cursor -> result cursor)
    (fuel : nat) (c : cursor) : result cursor :=
  match fuel with
  | O => Err OutOfFuel
  | S fuel' =>
    if dst_index c !!! index <? b dst_area !!! index then
      match body c with
      | Ok c1 =>
        for_axis index body fuel'
          (Cursor
             (<[index := wrap 32 (dst_index c1 !!! index + 1)]> (dst_index c1))
             (<[index := add_assign (src_index c1 !!! index)
                                    (src_delta !!! index)]> (src_index c1))
             (captured c1))
      | Err e => Err e
      end
    else Ok c
  end.

(** The loop on one axis visits [b - a] indices when [a < b] and none
    otherwise; one more unit of fuel pays for the last test. *)
Definition axis_fuel (index : nat) : nat :=
  S (Z.to_nat (b dst_area !!! index - a dst_area !!! index)).

(** [iterator<0,...>::operator()] calls the processor. *)
Definition invoke (c : cursor) : result cursor :=
  Ok (Cursor (dst_index c) (src_index c)
             (processor (dst_index c) (src_index c) (captured c))).

(** [iterator<index,dimensions,processor_t>::operator()]: the primary
    template recurses into [iterator<index-1,...>], the specialisation
    for index 0 calls the processor. *)
Fixpoint iterator (index : nat) (c : cursor) : result cursor :=
  let c0 :=
    Cursor (<[index := a dst_area !!! index]> (dst_index c))
           (<[index := src_start !!! index]> (src_index c))
           (captured c) in
  for_axis index
    (match index with
     | O => invoke
     | S index' => iterator index'
     end)
    (axis_fuel index) c0.

End Iterator.

End internal.

(** ** The example processor [write<dst_t,src_t>]

    Memory reached through a pointer is a function from element index to
    element; [dst_t(...)] is the conversion [cast]. The state that the
    processor changes is the destination array. *)
Definition write {dst_t src_t : Type} (cast : src_t -> dst_t)
    (m_src : Z -> src_t)
    (dst : Point Z) (src : Point fixed32_t) (m_dst : Z -> dst_t) : Z -> dst_t :=
  fun k => if k =? dst !!! 0%nat then cast (m_src (to_int (src !!! 0%nat)))
           else m_dst k.

(** ** [scale] *)

(** The local variables of [scale] that its third loop updates. *)
Record locals : Type :=
  Locals { dst_area : Area Z;
           src_area : Area fixed32_t;
           src_delta : Point fixed32_t;
           src_start : Point fixed32_t }.

(** First loop: [if (dst_mask.a[i] > dst_mask.b[i]) swap]. *)
Definition normalize_mask (i : nat) (dst_mask : Area Z) : control (Area Z) :=
  Continue (if greater (a dst_mask !!! i) (b dst_mask !!! i)
            then internal.swap i dst_mask else dst_mask).

(** Second loop: [return] on an axis whose endpoints compare equal. *)
Definition reject_degenerate (dst_area : Area Z) (src_area : Area fixed32_t)
    (i : nat) (u : unit) : control unit :=
  if equal (a dst_area !!! i) (b dst_area !!! i) then Return
  else if equal (a src_area !!! i) (b src_area !!! i) then Return
  else Continue u.

(** Body of the third loop. The subtractions and the division of line 336
    are 32-bit operations: a difference that does not fit wraps around,
    and a divisor that is zero after it is a fault. The quotient of the
    least [int32_t] by a width that wrapped to -1 is given its wrapped
    value here; the theorems that say which calls are made exclude it
    with [width_fits] or a bound on the width. *)
Definition scale_axis (dst_mask : Area Z) (i : nat) (l : locals)
    : control locals :=
  let reversed := greater (a (dst_area l) !!! i) (b (dst_area l) !!! i) in
  let dst := if reversed then internal.swap i (dst_area l) else dst_area l in
  let src := if reversed then internal.swap i (src_area l) else src_area l in
  if less (b dst !!! i) (a dst_mask !!! i)
     || negb (less (a dst !!! i) (b dst_mask !!! i))
  then Return
  else
    let width := wrap 32 (b dst !!! i - a dst !!! i) in
    if width =? 0 then Fail DivisionByZero
    else
      let delta : fixed32_t :=
        Fixed (wrap 32 (Z.quot (wrap 32 (value_bits (b src !!! i)
                                         - value_bits (a src !!! i)))
                               width)) in
      let start : fixed32_t :=
        if value_bits delta >=? 0
        then internal.min (a src !!! i) (b src !!! i)
        else add (internal.max (a src !!! i) (b src !!! i)) delta in
      let clip_a := less (a dst !!! i) (a dst_mask !!! i) in
      let start : fixed32_t :=
        if clip_a
        then Fixed (wrap 32 (value_bits start
                     + wrap 32 (value_bits delta
                                * wrap 32 (a dst_mask !!! i - a dst !!! i))))
        else start in
      let dst :=
        if clip_a then mkArea (<[i := a dst_mask !!! i]> (a dst)) (b dst)
        else dst in
      let dst :=
        if negb (less (b dst !!! i) (b dst_mask !!! i))
        then mkArea (a dst) (<[i := b dst_mask !!! i]> (b dst))
        else dst in
      Continue (Locals dst src (<[i := delta]> (src_delta l))
                       (<[i := start]> (src_start l))).

(** A point whose coordinates have not been assigned yet. *)
Definition fresh {T} `{Inhabited T} (dimensions : nat) : Point T :=
  replicate dimensions inhabitant.

(** The statements of [scale] before the traversal: the three loops.
    [Return] is one of the early [return]s; [Continue] carries the local
    variables as the traversal receives them. *)
Definition prepare (dimensions : nat)
    (dst_area : Area Z) (src_area : Area fixed32_t) (dst_mask : Area Z)
    : control locals :=
  let axes := seq 0 dimensions in
  match for_each normalize_mask axes dst_mask with
  | Continue dst_mask =>
    match for_each (reject_degenerate dst_area src_area) axes tt with
    | Continue _ =>
      for_each (scale_axis dst_mask) axes
        (Locals dst_area src_area (fresh dimensions) (fresh dimensions))
    | Return => Return
    | Fail e => Fail e
    end
  | Return => Return
  | Fail e => Fail e
  end.

Section Scale.

Context {state : Type}.

(** [scale<processor_t,dimensions>(dst_area, src_area, processor, dst_mask)]
    run from the processor state [s]. *)
Definition scale (dimensions : nat)
    (dst_area : Area Z) (src_area : Area fixed32_t)
    (processor : Point Z -> Point fixed32_t -> state -> state)
    (dst_mask : Area Z) (s : state) : result state :=
  match prepare dimensions dst_area src_area dst_mask with
  | Continue (Locals dst_area _ src_delta src_start) =>
    match internal.iterator processor dst_area src_start
            src_delta (dimensions - 1)
            (internal.Cursor (fresh dimensions) (fresh dimensions) s)
    with
    | Ok c => Ok (internal.captured c)
    | Err e => Err e
    end
  | Return => Ok s
  | Fail e => Err e
  end.

End Scale.

(** The processor that records its arguments, in call order. *)
Definition record_call (d : Point Z) (x : Point fixed32_t)
    (t : list (Point Z * Point fixed32_t)) : list (Point Z * Point fixed32_t) :=
  t ++ [(d, x)].

(** The calls that [scale] makes to its processor. *)
Definition calls (dimensions : nat) (dst_area : Area Z)
    (src_area : Area fixed32_t) (dst_mask : Area Z)
    : result (list (Point Z * Point fixed32_t)) :=
  scale dimensions dst_area src_area record_call dst_mask [].

(** ** The calls of a traversal, in closed form *)

(** The [n] iterations of the loop on one axis from destination index [k]
    and source index [s]: the pairs of indices at which the body runs. *)
Fixpoint samples (n : nat) (k : Z) (s delta : fixed32_t)
    : list (Z * fixed32_t) :=
  match n with
  | O => []
  | S n' => (k, s) :: samples n' (k + 1) (add_assign s delta) delta
  end.

(** The iterations of the loop on axis [i] of a prepared traversal. *)
Definition axis_samples (dst_area : Area Z)
    (src_start src_delta : Point fixed32_t) (i : nat) : list (Z * fixed32_t) :=
  samples (Z.to_nat (b dst_area !!! i - a dst_area !!! i))
          (a dst_area !!! i) (src_start !!! i) (src_delta !!! i).

(** The index pairs of the nest of loops on axes [0 .. n-1], axis [n-1]
    outermost, given the iterations [ax i] of every axis. *)
Fixpoint grid (ax : nat -> list (Z * fixed32_t)) (n : nat)
    : list (Point Z * Point fixed32_t) :=
  match n with
  | O => [([], [])]
  | S n' =>
    flat_map (fun ks => map (fun dx => (dx.1 ++ [ks.1], dx.2 ++ [ks.2]))
                            (grid ax n'))
             (ax n')
  end.

(** Running a processor over a list of calls. *)
Definition run {state : Type}
    (processor : Point Z -> Point fixed32_t -> state -> state)
    (t : list (Point Z * Point fixed32_t)) (s : state) : state :=
  fold_left (fun s dx => processor dx.1 dx.2 s) t s.

(** Index pairs completed by the coordinates of the enclosing loops. *)
Definition extend (dtail : Point Z) (xtail : Point fixed32_t)
    (t : list (Point Z * Point fixed32_t)) : list (Point Z * Point fixed32_t) :=
  map (fun dx => (dx.1 ++ dtail, dx.2 ++ xtail)) t.

(** ** One axis of [scale] on scalars

    The third loop of [scale] reads and writes only the entries of axis
    [i] of its arrays. [axis] holds those entries; [axis_step] is the loop
    body on them. Lemma [scale_axis_local] shows that [scale_axis] is
    [axis_step] on the entries of axis [i]. *)

Record axis : Type :=
  Axis { ax_dst_a : Z; ax_dst_b : Z;
         ax_src_a : fixed32_t; ax_src_b : fixed32_t;
         ax_delta : fixed32_t; ax_start : fixed32_t }.

Definition view (l : locals) (i : nat) : axis :=
  Axis (a (dst_area l) !!! i) (b (dst_area l) !!! i)
       (a (src_area l) !!! i) (b (src_area l) !!! i)
       (src_delta l !!! i) (src_start l !!! i).

Definition axis_step (mask_a mask_b : Z) (v : axis) : control axis :=
  let reversed := greater (ax_dst_a v) (ax_dst_b v) in
  let da := if reversed then ax_dst_b v else ax_dst_a v in
  let db := if reversed then ax_dst_a v else ax_dst_b v in
  let sa := if reversed then ax_src_b v else ax_src_a v in
  let sb := if reversed then ax_src_a v else ax_src_b v in
  if less db mask_a || negb (less da mask_b) then Return
  else
    let width := wrap 32 (db - da) in
    if width =? 0 then Fail DivisionByZero
    else
      let delta : fixed32_t :=
        Fixed (wrap 32 (Z.quot (wrap 32 (value_bits sb - value_bits sa))
                               width)) in
      let start : fixed32_t :=
        if value_bits delta >=? 0 then internal.min sa sb
        else add (internal.max sa sb) delta in
      let clip_a := less da mask_a in
      let start : fixed32_t :=
        if clip_a
        then Fixed (wrap 32 (value_bits start
                     + wrap 32 (value_bits delta * wrap 32 (mask_a - da))))
        else start in
      let da := if clip_a then mask_a else da in
      let db := if negb (less db mask_b) then mask_b else db in
      Continue (Axis da db sa sb delta start).

(** The calls on one axis: none when the axis is degenerate or outside
    the mask, otherwise the iterations of its loop. *)
Definition axis_calls (da db : Z) (sa sb : fixed32_t) (ma mb : Z)
    : list (Z * fixed32_t) :=
  if equal da db || equal sa sb then []
  else
    match axis_step (Z.min ma mb) (Z.max ma mb)
                    (Axis da db sa sb inhabitant inhabitant) with
    | Continue v =>
      samples (Z.to_nat (ax_dst_b v - ax_dst_a v)) (ax_dst_a v)
              (ax_start v) (ax_delta v)
    | _ => []
    end.

Definition axis_calls_at (dst : Area Z) (src : Area fixed32_t)
    (mask : Area Z) (i : nat) : list (Z * fixed32_t) :=
  axis_calls (a dst !!! i) (b dst !!! i) (a src !!! i) (b src !!! i)
             (a mask !!! i) (b mask !!! i).

(** ** Well-formed arguments

    A [Point<int32_t,dimensions>] has [dimensions] coordinates, each a
    32-bit integer. *)
Definition int32_point (dimensions : nat) (p : Point Z) : Prop :=
  length p = dimensions /\ Forall (in_range 32) p.

Definition fixed32_point (dimensions : nat) (p : Point fixed32_t) : Prop :=
  length p = dimensions /\ Forall (fun x => in_range 32 (value_bits x)) p.

Definition int32_area (dimensions : nat) (r : Area Z) : Prop :=
  int32_point dimensions (a r) /\ int32_point dimensions (b r).

Definition fixed32_area (dimensions : nat) (r : Area fixed32_t) : Prop :=
  fixed32_point dimensions (a r) /\ fixed32_point dimensions (b r).

(** An axis is degenerate when its destination endpoints are equal or
    its source endpoints compare equal. *)
Definition degenerate (dst : Area Z) (src : Area fixed32_t) (i : nat) : bool :=
  equal (a dst !!! i) (b dst !!! i) || equal (a src !!! i) (b src !!! i).

(** The arrays of the third loop all have [dimensions] entries. *)
Definition locals_wf (dimensions : nat) (l : locals) : Prop :=
  length (a (dst_area l)) = dimensions /\
  length (b (dst_area l)) = dimensions /\
  length (a (src_area l)) = dimensions /\
  length (b (src_area l)) = dimensions /\
  length (src_delta l) = dimensions /\
  length (src_start l) = dimensions.

(** The arguments of a call of [scale] in [dimensions] dimensions. *)
Definition well_formed (dimensions : nat) (dst : Area Z)
    (src : Area fixed32_t) (mask : Area Z) : Prop :=
  (0 < dimensions)%nat /\
  int32_area dimensions dst /\
  fixed32_area dimensions src /\
  int32_area dimensions mask.

(** On every axis the destination width [dst_area.b[i] - dst_area.a[i]]
    of line 336, taken after the swap of lines 331-334, is a value of
    [int32_t]: the divisor of line 336 is the width itself and positive.
    A width that does not fit wraps around, at most to -1, and the
    division instruction faults on the quotient of the least [int32_t]
    by -1, for which [scale_axis] has the wrapped quotient. *)
Definition width_fits (dimensions : nat) (dst : Area Z) : Prop :=
  forall i : nat, (i < dimensions)%nat ->
    in_range 32 (Z.max (a dst !!! i) (b dst !!! i)
                 - Z.min (a dst !!! i) (b dst !!! i)).

(** ** The quantities of one axis, by name

    The source endpoint that is paired with the lower and with the upper
    destination endpoint once a reversed axis has been swapped, the step
    of line 336 and the start of line 337. Lemma [axis_step_normal] shows
    that these are what [axis_step], hence [scale], computes. *)

Definition src_from (da db : Z) (sa sb : fixed32_t) : fixed32_t :=
  if da >? db then sb else sa.

Definition src_to (da db : Z) (sa sb : fixed32_t) : fixed32_t :=
  if da >? db then sa else sb.

Definition axis_delta (da db : Z) (sa sb : fixed32_t) : fixed32_t :=
  Fixed (wrap 32 (Z.quot (wrap 32 (value_bits (src_to da db sa sb)
                                   - value_bits (src_from da db sa sb)))
                         (wrap 32 (Z.max da db - Z.min da db)))).

Definition axis_start (da db : Z) (sa sb : fixed32_t) : fixed32_t :=
  if value_bits (axis_delta da db sa sb) >=? 0
  then internal.min (src_from da db sa sb) (src_to da db sa sb)
  else add (internal.max (src_from da db sa sb) (src_to da db sa sb))
           (axis_delta da db sa sb).

(** The start after the compensation of line 339 for a mask that begins
    at [ma]. *)
Definition axis_start_clipped (da db : Z) (sa sb : fixed32_t) (ma : Z)
    : fixed32_t :=
  if Z.min da db <? ma
  then Fixed (wrap 32 (value_bits (axis_start da db sa sb)
               + wrap 32 (value_bits (axis_delta da db sa sb)
                          * wrap 32 (ma - Z.min da db))))
  else axis_start da db sa sb.

(** The source index after [n] steps of [src_index[index] += delta]. *)
Fixpoint advance (n : nat) (s delta : fixed32_t) : fixed32_t :=
  match n with
  | O => s
  | S n' => advance n' (add_assign s delta) delta
  end.




(** The iterations of a loop of [n] steps in closed form: destination
    index [k + j] with source index [v + j * delta], wrapped to 32 bits. *)
Definition ramp (n : nat) (k v delta : Z) : list (Z * fixed32_t) :=
  map (fun j => (k + Z.of_nat j, Fixed (wrap 32 (v + Z.of_nat j * delta))))
      (seq 0 n).

(** The [j]-th integer from [x] in the direction of [y]: [x + j] in an
    ascending range [[x, y)], and [x - 1 - j] in a descending one, whose
    integers are [x - 1] down to [y]. *)
Definition toward (x y j : Z) : Z :=
  if x <? y then x + j else x - 1 - j.

(** What a loop body at nesting level [index] of a traversal does: it
    runs the nest of the axes below [index], whose iterations are [ax],
    with the coordinates from [index] up as they are in the cursor, and
    it leaves those coordinates unchanged. *)
Definition body_spec {state : Type}
    (processor : Point Z -> Point fixed32_t -> state -> state)
    (ax : nat -> list (Z * fixed32_t)) (index : nat)
    (body : internal.cursor -> result internal.cursor) : Prop :=
  forall c : internal.cursor,
    (index <= length (internal.dst_index c))%nat ->
    (index <= length (internal.src_index c))%nat ->
    exists c' : internal.cursor,
      body c = Ok c' /\
      internal.captured c'
      = run processor
          (extend (drop index (internal.dst_index c))
                  (drop index (internal.src_index c)) (grid ax index))
          (internal.captured c) /\
      drop index (internal.dst_index c') = drop index (internal.dst_index c) /\
      drop index (internal.src_index c') = drop index (internal.src_index c) /\
      length (internal.dst_index c') = length (internal.dst_index c) /\
      length (internal.src_index c') = length (internal.src_index c).

(** ** Tactics *)

(** Closed arithmetic side conditions are settled by evaluation. *)
Ltac by_evaluation :=
  solve [ lia
        | unfold in_range; vm_compute;
          repeat split; (reflexivity || discriminate) ].

(** Well-formedness of concrete arguments is settled by evaluation. *)
Ltac well_formed_by_evaluation :=
  unfold well_formed, int32_area, fixed32_area, int32_point, fixed32_point;
  cbn [a b length];
  repeat split; try lia;
  repeat match goal with
         | |- Forall _ [] => constructor
         | |- Forall _ (_ :: _) =>
           constructor; [first [assumption | by_evaluation] | ]
         end.

(** ** Quantities used to state further properties of [scale] *)

(** Neither the destination width nor the source span of any axis
    overflows a 32-bit integer, in either direction. *)
Definition no_overflow (dimensions : nat) (dst : Area Z)
    (src : Area fixed32_t) : Prop :=
  forall i : nat, (i < dimensions)%nat ->
    in_range 32 (b dst !!! i - a dst !!! i) /\
    in_range 32 (a dst !!! i - b dst !!! i) /\
    in_range 32 (value_bits (b src !!! i) - value_bits (a src !!! i)) /\
    in_range 32 (value_bits (a src !!! i) - value_bits (b src !!! i)).

(** The destination range of axis [i] put in order and clipped to the
    mask put in order: [[clip_lo, clip_hi)]. *)
Definition clip_lo (dst mask : Area Z) (i : nat) : Z :=
  Z.max (Z.min (a dst !!! i) (b dst !!! i))
        (Z.min (a mask !!! i) (b mask !!! i)).

Definition clip_hi (dst mask : Area Z) (i : nat) : Z :=
  Z.min (Z.max (a dst !!! i) (b dst !!! i))
        (Z.max (a mask !!! i) (b mask !!! i)).

(** The product of the widths [w 0 .. w (n-1)]. *)
Fixpoint volume (w : nat -> nat) (n : nat) : nat :=
  match n with
  | O => 1%nat
  | S n' => (w n' * volume w n')%nat
  end.

(** * Properties *)

(** ** Wrap-around arithmetic *)

Lemma pow2_pos (n : Z) : 0 < 2 ^ n \/ n < 0.
Proof.
  destruct (Z.lt_ge_cases n 0) as [Hn | Hn]; [now right | left].
  apply Z.pow_pos_nonneg; lia.
Qed.

Lemma pow2_double (n : Z) : 0 < n -> 2 ^ n = 2 * 2 ^ (n - 1).
Proof.
  intros Hn. replace n with (Z.succ (n - 1)) at 1 by lia.
  apply Z.pow_succ_r; lia.
Qed.

Lemma wrap_in_range (n z : Z) : 0 < n -> in_range n (wrap n z).
Proof.
  intros Hn. unfold in_range, wrap.
  pose proof (pow2_double n Hn) as Hd.
  assert (0 < 2 ^ (n - 1)) by (apply Z.pow_pos_nonneg; lia).
  pose proof (Z.mod_pos_bound (z + 2 ^ (n - 1)) (2 ^ n)). lia.
Qed.

Lemma wrap_small (n z : Z) : 0 < n -> in_range n z -> wrap n z = z.
Proof.
  intros Hn [Hlo Hhi]. unfold wrap.
  pose proof (pow2_double n Hn) as Hd.
  rewrite Z.mod_small; lia.
Qed.

Lemma wrap_eqm (n x y : Z) :
  x mod 2 ^ n = y mod 2 ^ n -> wrap n x = wrap n y.
Proof.
  intros H. unfold wrap. f_equal.
  rewrite <- (Zplus_mod_idemp_l x), <- (Zplus_mod_idemp_l y), H. reflexivity.
Qed.

Lemma wrap_mod (n x : Z) : 0 < n -> wrap n x mod 2 ^ n = x mod 2 ^ n.
Proof.
  intros Hn. unfold wrap.
  pose proof (pow2_double n Hn) as Hd.
  rewrite Zminus_mod_idemp_l. f_equal. lia.
Qed.

Lemma wrap_add_l (n x y : Z) : 0 < n -> wrap n (wrap n x + y) = wrap n (x + y).
Proof.
  intros Hn. apply wrap_eqm.
  rewrite <- Zplus_mod_idemp_l, wrap_mod, Zplus_mod_idemp_l by lia.
  reflexivity.
Qed.

Lemma wrap_add_r (n x y : Z) : 0 < n -> wrap n (x + wrap n y) = wrap n (x + y).
Proof.
  intros Hn. rewrite (Z.add_comm x), wrap_add_l, (Z.add_comm y) by lia.
  reflexivity.
Qed.

Lemma wrap_mul_r (n x y : Z) : 0 < n -> wrap n (x * wrap n y) = wrap n (x * y).
Proof.
  intros Hn. apply wrap_eqm.
  rewrite <- Zmult_mod_idemp_r, wrap_mod, Zmult_mod_idemp_r by lia.
  reflexivity.
Qed.

Lemma in_range_mono (n m z : Z) : 0 < n <= m -> in_range n z -> in_range m z.
Proof.
  intros Hnm [Hlo Hhi]. unfold in_range.
  assert (2 ^ (n - 1) <= 2 ^ (m - 1)) by (apply Z.pow_le_mono_r; lia).
  lia.
Qed.

(** ** Fixed-point conversion and division *)

(** The conversion to an integer is the floor of the represented value. *)
Lemma to_int_floor {bits precision} (x : fixed bits precision) :
  0 <= precision ->
  to_int x = value_bits x / 2 ^ precision.
Proof. intros Hp. unfold to_int. apply Z.shiftr_div_pow2, Hp. Qed.

Lemma of_int_exact {bits precision} (n : Z) :
  0 <= precision ->
  in_range (intinfo.bits bits) (n * 2 ^ precision) ->
  value_bits (of_int n : fixed bits precision) = n * 2 ^ precision.
Proof.
  intros Hp Hn. unfold of_int. simpl.
  rewrite Z.shiftl_mul_pow2 by exact Hp.
  assert (0 < intinfo.bits bits <= arith_bits bits)
    by (unfold arith_bits; destruct bits; simpl; lia).
  rewrite (wrap_small (arith_bits bits)); [ | lia | ].
  - apply wrap_small; [lia | exact Hn].
  - eapply in_range_mono; [ | exact Hn]. lia.
Qed.

(** A scaled quotient of nonnegative operands, floored twice. *)
Lemma scaled_floor_same (A B P : Z) :
  0 <= A -> 0 < B -> 0 < P -> A * P / B / P = A / B.
Proof.
  intros HA HB HP. rewrite Z.div_div by lia.
  apply Z.div_mul_cancel_r; lia.
Qed.

(** A scaled quotient truncated toward zero and then floored, for a
    negative quotient: the truncation loses the floor when the remainder
    of the division is positive and smaller than one unit of the scale. *)
Lemma scaled_floor_opp (A B P : Z) :
  0 <= A -> 0 < B -> 0 < P ->
  - (A * P / B) / P
  = - A / B + (if (0 <? A mod B * P) && (A mod B * P <? B) then 1 else 0).
Proof.
  intros HA HB HP.
  pose proof (Z.div_mod A B ltac:(lia)) as Hd.
  pose proof (Z.mod_pos_bound A B HB) as Hr.
  set (n := A / B) in *. set (r := A mod B) in *.
  assert (HT : A * P / B = n * P + r * P / B).
  { replace (A * P) with (n * P * B + r * P) by (rewrite Hd at 1; ring).
    apply Z.div_add_l. lia. }
  assert (HnA : - A / B = if r =? 0 then - n else - n - 1).
  { destruct (Z.eqb_spec r 0) as [Hr0 | Hr0]; symmetry.
    - apply Z.div_unique with (r := 0); lia.
    - apply Z.div_unique with (r := B - r); lia. }
  rewrite HT, HnA.
  assert (Ht : 0 <= r * P / B < P).
  { split; [apply Z.div_pos; nia | apply Z.div_lt_upper_bound; nia]. }
  destruct (Z.ltb_spec (r * P) B) as [Hlost | Hkept].
  - rewrite (Z.div_small (r * P) B) by nia.
    replace (- (n * P + 0)) with (- n * P) by ring.
    rewrite Z.div_mul by lia.
    destruct (Z.eqb_spec r 0) as [Hr0 | Hr0].
    + rewrite Hr0, Z.mul_0_l. change (0 <? 0) with false. cbn [andb]. lia.
    + destruct (Z.ltb_spec 0 (r * P)); [cbn [andb]; lia | nia].
  - rewrite andb_false_r, Z.add_0_r.
    assert (Hpos : 0 < r * P / B).
    { apply Z.div_str_pos. lia. }
    destruct (Z.eqb_spec r 0) as [Hr0 | _]; [nia | ].
    symmetry. apply Z.div_unique with (r := P - r * P / B); lia.
Qed.

(** What flooring after truncating does to the quotient of two integers
    scaled by [P]: it is the floor of the quotient, plus one when the
    quotient is negative and its remainder is positive and below
    [|y| / P]. *)
Lemma quot_scaled (x y P : Z) :
  0 < P -> y <> 0 ->
  Z.quot (x * P) y / P
  = x / y + (if (x * y <? 0)
                && (0 <? Z.abs x mod Z.abs y * P)
                && (Z.abs x mod Z.abs y * P <? Z.abs y)
             then 1 else 0).
Proof.
  intros HP Hy.
  destruct (Z.le_gt_cases 0 x) as [Hx | Hx],
           (Z.lt_ge_cases 0 y) as [Hy' | Hy'].
  - destruct (Z.ltb_spec (x * y) 0); [nia | ]. cbn [andb].
    rewrite Z.add_0_r, Z.quot_div_nonneg by nia.
    apply scaled_floor_same; lia.
  - remember (- y) as B eqn:HB. assert (y = - B) as -> by lia.
    assert (HBpos : 0 < B) by lia.
    rewrite Z.abs_opp, (Z.abs_eq x), (Z.abs_eq B) by lia.
    rewrite Z.quot_opp_r, Z.quot_div_nonneg by nia.
    assert (Hdiv : x / - B = - x / B).
    { rewrite <- (Z.div_opp_opp (- x) B) by lia.
      rewrite Z.opp_involutive. reflexivity. }
    rewrite Hdiv, scaled_floor_opp by lia. f_equal.
    destruct (Z.ltb_spec (x * - B) 0) as [_ | Hzero]; [reflexivity | ].
    assert (x = 0) as -> by nia. rewrite Z.mod_0_l by lia. reflexivity.
  - remember (- x) as A eqn:HA. assert (x = - A) as -> by lia.
    assert (HApos : 0 < A) by lia.
    rewrite Z.abs_opp, (Z.abs_eq A), (Z.abs_eq y) by lia.
    rewrite Z.mul_opp_l, Z.quot_opp_l, Z.quot_div_nonneg by nia.
    rewrite scaled_floor_opp by lia. f_equal.
    destruct (Z.ltb_spec (- A * y) 0); [reflexivity | nia].
  - remember (- x) as A eqn:HA. assert (x = - A) as -> by lia.
    remember (- y) as B eqn:HB. assert (y = - B) as -> by lia.
    destruct (Z.ltb_spec (- A * - B) 0); [nia | ]. cbn [andb].
    rewrite Z.add_0_r, Z.mul_opp_l, Z.quot_opp_opp, Z.div_opp_opp by lia.
    rewrite Z.quot_div_nonneg by nia.
    apply scaled_floor_same; lia.
Qed.

(** C8, as it holds on the code: for integers [x] and [y] that the format
    represents, with [y] nonzero, a dividend that still fits the type of
    the division after its second shift, and a quotient that the format
    represents, [fixed(x) / fixed(y)] has a result, and
    [int_t(fixed(x) / fixed(y))] is the floor of [x / y] exactly when
    [x] and [y] have the same sign or [x] is 0, or [y] divides [x], or
    the remainder of [|x|] by [|y|] is at least [|y| / 2^precision] (as
    it is for every [|y| <= 2^precision]); in every other case it is the
    floor plus one. The conversion of any fixed-point value to an integer
    is the floor of the value (an arithmetic right shift by [precision]
    bits). *)
Theorem fixed_div_floor (bits : intinfo.width) (precision : Z) (x y : Z) :
  0 <= precision ->
  in_range (intinfo.bits bits) (x * 2 ^ precision) ->
  in_range (intinfo.bits bits) (y * 2 ^ precision) ->
  in_range (arith_bits (intinfo.next bits)) (x * 2 ^ precision * 2 ^ precision) ->
  y <> 0 ->
  in_range (intinfo.bits bits) (Z.quot (x * 2 ^ precision) y) ->
  (exists q : fixed bits precision,
     div (of_int x) (of_int y) = Some q /\
     (to_int q = x / y <->
      0 <= x * y \/ Z.abs x mod Z.abs y = 0 \/
      Z.abs y <= Z.abs x mod Z.abs y * 2 ^ precision) /\
     (to_int q = x / y \/ to_int q = x / y + 1)) /\
  (forall v : fixed bits precision,
     to_int v = Z.shiftr (value_bits v) precision /\
     to_int v * 2 ^ precision <= value_bits v
       < (to_int v + 1) * 2 ^ precision).
Proof.
  intros Hp Hx Hy Hwide Hy0 Hq.
  assert (HP : 0 < 2 ^ precision) by (apply Z.pow_pos_nonneg; lia).
  split.
  - assert (Hbits : 0 < intinfo.bits bits <= arith_bits (intinfo.next bits))
      by (unfold arith_bits; destruct bits; simpl; lia).
    assert (Hdiv : div (of_int x) (of_int y)
                   = Some (Fixed (Z.quot (x * 2 ^ precision) y)
                           : fixed bits precision)).
    { unfold div, div_assign. rewrite !of_int_exact by assumption.
      destruct (Z.eqb_spec (y * 2 ^ precision) 0) as [H0 | _]; [nia | ].
      rewrite Z.shiftl_mul_pow2 by exact Hp.
      rewrite (wrap_small _ (x * 2 ^ precision * 2 ^ precision))
        by (assumption || lia).
      rewrite Z.quot_mul_cancel_r by lia.
      destruct (Z.eqb_spec (y * 2 ^ precision) (-1)) as [Hm1 | _].
      - assert (2 ^ precision = 1 /\ y = -1) as [HP1 ->] by nia.
        assert (Hm : Z.quot x (-1) = - x).
        { change (-1) with (Z.opp 1).
          rewrite Z.quot_opp_r, Z.quot_1_r by lia. reflexivity. }
        rewrite HP1, !Z.mul_1_r in *. rewrite Hm in Hq.
        destruct (Z.eqb_spec x (- 2 ^ (arith_bits (intinfo.next bits) - 1)))
          as [Hmin | _]; [exfalso | cbn [andb]].
        + assert (2 ^ (intinfo.bits bits - 1)
                  <= 2 ^ (arith_bits (intinfo.next bits) - 1))
            by (apply Z.pow_le_mono_r; lia).
          unfold in_range in Hq. lia.
        + rewrite Hm.
          rewrite (wrap_small (arith_bits (intinfo.next bits)));
            [ | lia | eapply in_range_mono; [ | exact Hq]; lia ].
          rewrite wrap_small by (assumption || lia). reflexivity.
      - rewrite andb_false_r.
        rewrite (wrap_small (arith_bits (intinfo.next bits)));
          [ | lia | eapply in_range_mono; [ | exact Hq]; lia ].
        rewrite wrap_small by (assumption || lia). reflexivity. }
    eexists. split; [exact Hdiv | ].
    rewrite to_int_floor by exact Hp. cbn [value_bits].
    rewrite quot_scaled by assumption.
    pose proof (Z.mod_pos_bound (Z.abs x) (Z.abs y) ltac:(lia)) as Hr.
    destruct (Z.ltb_spec (x * y) 0) as [Hneg | Hsame];
      destruct (Z.ltb_spec 0 (Z.abs x mod Z.abs y * 2 ^ precision))
        as [Hrem | Hexact];
      destruct (Z.ltb_spec (Z.abs x mod Z.abs y * 2 ^ precision) (Z.abs y))
        as [Hlost | Hkept];
      cbn [andb]; split; try lia;
      (split; [intros _ | intros _; lia]); nia.
  - intros v. split; [reflexivity | ].
    rewrite to_int_floor by exact Hp.
    pose proof (Z.div_mod (value_bits v) (2 ^ precision) ltac:(lia)).
    pose proof (Z.mod_pos_bound (value_bits v) (2 ^ precision) HP). lia.
Qed.

Lemma fixed_div_floor_witness :
  exists q : fixed32_t,
    div (of_int (-7)) (of_int 2) = Some q /\ to_int q = -7 / 2.
Proof.
  destruct (fixed_div_floor intinfo.I32 15 (-7) 2)
    as [(q & Hq & Hfloor & _) _]; try by_evaluation.
  exists q. split; [exact Hq | ].
  apply Hfloor. right. right. by_evaluation.
Defined.

(** C8 as stated fails on [fixed<32,15>] at [-1 / 40000]: the truncating
    division gives the representation 0, whose integer part is 0, while
    the floor of the quotient is -1. *)
Lemma fixed_div_not_floor :
  ~ (forall x y : Z,
       in_range 32 (x * 2 ^ 15) -> in_range 32 (y * 2 ^ 15) ->
       in_range 64 (x * 2 ^ 15 * 2 ^ 15) -> y <> 0 ->
       exists q : fixed32_t,
         div (of_int x) (of_int y) = Some q /\ to_int q = x / y).
Proof.
  intros H.
  destruct (H (-1) 40000) as [q [Hq Hfloor]]; try by_evaluation.
  vm_compute in Hq. injection Hq as <-. vm_compute in Hfloor. discriminate.
Qed.

(** C9: [fixed32(3, 5)], [fixed32(3, 50)] and [fixed32(3, 500)] are the
    same value, the one of the four-digit numerator [fixed32(3, 5000)];
    its representation is 114689, one unit of [2^-15] above the
    representation [3 * 2^15 + 2^14] of 3.5. *)
Theorem fixed32_decimal_half :
  fixed32 3 5 = fixed32 3 5000 /\
  fixed32 3 50 = fixed32 3 5000 /\
  fixed32 3 500 = fixed32 3 5000 /\
  SCALE = 32767 * 2 ^ 15 / 9999 /\
  value_bits (fixed32 3 5000) = 3 * 2 ^ 15 + Z.shiftr (5000 * SCALE) 15 /\
  value_bits (fixed32 3 5000) = 114689 /\
  Z.abs (value_bits (fixed32 3 5000) - (3 * 2 ^ 15 + 2 ^ 14)) <= 1 /\
  to_int (fixed32 3 5000) = 3.
Proof. vm_compute. repeat split; discriminate. Qed.

(** ** The traversal *)

Lemma run_app {state} (processor : Point Z -> Point fixed32_t -> state -> state)
    (t1 t2 : list (Point Z * Point fixed32_t)) (s : state) :
  run processor (t1 ++ t2) s = run processor t2 (run processor t1 s).
Proof. apply fold_left_app. Qed.

Lemma drop_lookup_total {T} `{Inhabited T} (l : list T) (i : nat) :
  (i < length l)%nat -> drop i l = l !!! i :: drop (S i) l.
Proof. intros Hi. apply drop_S, list_lookup_lookup_total_lt, Hi. Qed.

Lemma extend_snoc (dtail : Point Z) (xtail : Point fixed32_t) (ks : Z * fixed32_t)
    (t : list (Point Z * Point fixed32_t)) :
  extend dtail xtail (map (fun dx => (dx.1 ++ [ks.1], dx.2 ++ [ks.2])) t)
  = extend (ks.1 :: dtail) (ks.2 :: xtail) t.
Proof.
  unfold extend. rewrite map_map. apply map_ext. intros [d x]. simpl.
  rewrite <- !app_assoc. reflexivity.
Qed.

Lemma extend_flat_map {X} (dtail : Point Z) (xtail : Point fixed32_t)
    (f : X -> list (Point Z * Point fixed32_t)) (l : list X) :
  extend dtail xtail (flat_map f l)
  = flat_map (fun x => extend dtail xtail (f x)) l.
Proof.
  induction l as [ | x l IH]; simpl; [reflexivity | ].
  unfold extend in *. rewrite map_app, IH. reflexivity.
Qed.

Section IteratorSpec.

Context {state : Type}.
Variable processor : Point Z -> Point fixed32_t -> state -> state.
Variable dst_area : Area Z.
Variable src_start src_delta : Point fixed32_t.

Abbreviation ax := (axis_samples dst_area src_start src_delta).
Abbreviation cursor := (internal.cursor (state := state)).

Lemma invoke_spec : body_spec processor ax 0 (internal.invoke processor).
Proof.
  intros c _ _. eexists. split; [reflexivity | ]. simpl.
  rewrite !drop_0. repeat split; reflexivity.
Qed.

Lemma for_axis_spec (index : nat) (body : cursor -> result cursor) :
  body_spec processor ax index body ->
  in_range 32 (b dst_area !!! index) ->
  forall (n fuel : nat) (c : cursor),
    (index < length (internal.dst_index c))%nat ->
    (index < length (internal.src_index c))%nat ->
    in_range 32 (internal.dst_index c !!! index) ->
    n = Z.to_nat (b dst_area !!! index - internal.dst_index c !!! index) ->
    (n < fuel)%nat ->
    exists c' : cursor,
      internal.for_axis dst_area src_delta index body fuel c = Ok c' /\
      internal.captured c'
      = run processor
          (flat_map
             (fun ks => extend (ks.1 :: drop (S index) (internal.dst_index c))
                               (ks.2 :: drop (S index) (internal.src_index c))
                               (grid ax index))
             (samples n (internal.dst_index c !!! index)
                      (internal.src_index c !!! index) (src_delta !!! index)))
          (internal.captured c) /\
      drop (S index) (internal.dst_index c')
      = drop (S index) (internal.dst_index c) /\
      drop (S index) (internal.src_index c')
      = drop (S index) (internal.src_index c) /\
      length (internal.dst_index c') = length (internal.dst_index c) /\
      length (internal.src_index c') = length (internal.src_index c).
Proof.
  intros Hbody Hb n.
  induction n as [ | n IH]; intros fuel c Hd Hx Hk Hn Hfuel;
    (destruct fuel as [ | fuel]; [lia | ]); simpl.
  - destruct (Z.ltb_spec (internal.dst_index c !!! index)
                         (b dst_area !!! index)) as [Hlt | Hge]; [lia | ].
    exists c. repeat split; reflexivity.
  - destruct (Z.ltb_spec (internal.dst_index c !!! index)
                         (b dst_area !!! index)) as [Hlt | Hge]; [ | lia].
    destruct (Hbody c) as (c1 & -> & Hs1 & Hd1 & Hx1 & Hld1 & Hlx1);
      [lia | lia | ].
    assert (Hk1 : internal.dst_index c1 !!! index
                  = internal.dst_index c !!! index).
    { rewrite (drop_lookup_total (internal.dst_index c1)),
        (drop_lookup_total (internal.dst_index c)) in Hd1 by lia.
      congruence. }
    assert (Hs1' : internal.src_index c1 !!! index
                   = internal.src_index c !!! index).
    { rewrite (drop_lookup_total (internal.src_index c1)),
        (drop_lookup_total (internal.src_index c)) in Hx1 by lia.
      congruence. }
    assert (Hnext : wrap 32 (internal.dst_index c1 !!! index + 1)
                    = internal.dst_index c !!! index + 1).
    { rewrite Hk1. apply wrap_small; [lia | ].
      unfold in_range in *. lia. }
    match goal with
    | |- context [internal.for_axis _ _ _ _ fuel ?c2] =>
      destruct (IH fuel c2) as (c' & Hrun & Hs & Hd' & Hx' & Hld & Hlx)
    end; simpl.
    + rewrite length_insert. lia.
    + rewrite length_insert. lia.
    + rewrite list_lookup_total_insert_eq by lia. rewrite Hnext.
      unfold in_range in *. lia.
    + rewrite list_lookup_total_insert_eq by lia. rewrite Hnext. lia.
    + lia.
    + simpl in *.
      rewrite !list_lookup_total_insert_eq in Hs by lia.
      rewrite !drop_insert_lt in Hs by lia.
      rewrite drop_insert_lt in Hd' by lia.
      rewrite drop_insert_lt in Hx' by lia.
      rewrite length_insert in Hld. rewrite length_insert in Hlx.
      rewrite (drop_lookup_total (internal.dst_index c1)) in Hd1 by lia.
      rewrite (drop_lookup_total (internal.src_index c1)) in Hx1 by lia.
      rewrite (drop_lookup_total (internal.dst_index c)) in Hd1, Hs1 by lia.
      rewrite (drop_lookup_total (internal.src_index c)) in Hx1, Hs1 by lia.
      injection Hd1 as _ Hd1. injection Hx1 as _ Hx1.
      exists c'. split; [exact Hrun | ].
      rewrite run_app, <- Hs1, Hs, Hnext, Hs1', Hd1, Hx1.
      repeat split; congruence.
Qed.

Lemma iterator_unfold (index : nat) (c : cursor) :
  internal.iterator processor dst_area src_start src_delta index c
  = internal.for_axis dst_area src_delta index
      (match index with
       | O => internal.invoke processor
       | S index' =>
         internal.iterator processor dst_area src_start src_delta index'
       end)
      (internal.axis_fuel dst_area index)
      (internal.Cursor
         (<[index := a dst_area !!! index]> (internal.dst_index c))
         (<[index := src_start !!! index]> (internal.src_index c))
         (internal.captured c)).
Proof. destruct index; reflexivity. Qed.

Lemma grid_extend (index : nat) (dtail : Point Z) (xtail : Point fixed32_t) :
  extend dtail xtail (grid ax (S index))
  = flat_map (fun ks => extend (ks.1 :: dtail) (ks.2 :: xtail) (grid ax index))
             (ax index).
Proof.
  simpl. rewrite extend_flat_map. apply flat_map_ext. intros ks.
  apply extend_snoc.
Qed.

(** The traversal from axis [index] down returns, and what it does to the
    processor's state is to run the nest of the axes [0 .. index]. *)
Lemma iterator_spec (index : nat) :
  (forall i : nat, (i <= index)%nat ->
     in_range 32 (a dst_area !!! i) /\ in_range 32 (b dst_area !!! i)) ->
  forall c : cursor,
    (index < length (internal.dst_index c))%nat ->
    (index < length (internal.src_index c))%nat ->
    exists c' : cursor,
      internal.iterator processor dst_area src_start src_delta index c = Ok c' /\
      internal.captured c'
      = run processor
          (extend (drop (S index) (internal.dst_index c))
                  (drop (S index) (internal.src_index c))
                  (grid ax (S index)))
          (internal.captured c) /\
      drop (S index) (internal.dst_index c')
      = drop (S index) (internal.dst_index c) /\
      drop (S index) (internal.src_index c')
      = drop (S index) (internal.src_index c) /\
      length (internal.dst_index c') = length (internal.dst_index c) /\
      length (internal.src_index c') = length (internal.src_index c).
Proof.
  induction index as [ | index IH]; intros Hrange c Hd Hx;
    rewrite iterator_unfold, grid_extend;
    destruct (Hrange _ (Nat.le_refl _)) as [Ha Hb];
    match goal with
    | |- context [internal.for_axis _ _ ?i ?body ?fuel ?c0] =>
      assert (Hbody : body_spec processor ax i body);
        [ | destruct (for_axis_spec i body Hbody Hb
                        (Z.to_nat (b dst_area !!! i - a dst_area !!! i))
                        fuel c0)
              as (c' & Hrun & Hs & Hd' & Hx' & Hld & Hlx) ]
    end;
    try (simpl; rewrite ?length_insert, ?list_lookup_total_insert_eq by lia;
         (lia || assumption || reflexivity || (unfold internal.axis_fuel; lia))).
  - apply invoke_spec.
  - simpl in *. exists c'.
    rewrite !list_lookup_total_insert_eq in Hs by lia.
    rewrite !drop_insert_lt in Hs by lia.
    rewrite drop_insert_lt in Hd' by lia. rewrite drop_insert_lt in Hx' by lia.
    rewrite length_insert in Hld. rewrite length_insert in Hlx.
    repeat split; assumption.
  - intros c1 Hd1 Hx1. apply IH; [ | lia | lia].
    intros i Hi. apply Hrange. lia.
  - simpl in *. exists c'.
    rewrite !list_lookup_total_insert_eq in Hs by lia.
    rewrite !drop_insert_lt in Hs by lia.
    rewrite drop_insert_lt in Hd' by lia. rewrite drop_insert_lt in Hx' by lia.
    rewrite length_insert in Hld. rewrite length_insert in Hlx.
    repeat split; assumption.
Qed.

End IteratorSpec.

(** ** The loops of [scale] *)

Section Pointwise.

(** A loop over the axes whose body at [i] reads and writes only the
    part [view l i] of its state: the loop is decided axis by axis. *)
Context {L V : Type}.
Variable dimensions : nat.
Variable wf : L -> Prop.
Variable view_of : L -> nat -> V.
Variable body : nat -> L -> control L.
Variable step : nat -> V -> control V.

Hypothesis body_local : forall (i : nat) (l : L),
  (i < dimensions)%nat -> wf l ->
  match step i (view_of l i) with
  | Continue v =>
    exists l' : L, body i l = Continue l' /\ wf l' /\ view_of l' i = v /\
                   forall j : nat, j <> i -> view_of l' j = view_of l j
  | Return => body i l = Return
  | Fail e => body i l = Fail e
  end.

Lemma for_each_pointwise (n s : nat) (l : L) :
  (s + n <= dimensions)%nat -> wf l ->
  match for_each body (seq s n) l with
  | Continue l' =>
    wf l' /\
    (forall i : nat, (s <= i < s + n)%nat ->
       step i (view_of l i) = Continue (view_of l' i)) /\
    (forall j : nat, ~ (s <= j < s + n)%nat -> view_of l' j = view_of l j)
  | Return =>
    exists i : nat, (s <= i < s + n)%nat /\ step i (view_of l i) = Return
  | Fail e =>
    exists i : nat, (s <= i < s + n)%nat /\ step i (view_of l i) = Fail e
  end.
Proof.
  revert s l. induction n as [ | n IH]; intros s l Hs Hwf; simpl.
  - repeat split; [exact Hwf | intros; lia].
  - pose proof (body_local s l ltac:(lia) Hwf) as Hb.
    destruct (step s (view_of l s)) as [v | | e] eqn:Hstep.
    + destruct Hb as (l1 & -> & Hwf1 & Hv & Hother).
      specialize (IH (S s) l1 ltac:(lia) Hwf1).
      destruct (for_each body (seq (S s) n) l1) as [l' | | e].
      * destruct IH as (Hwf' & Hin & Hout). split; [exact Hwf' | split].
        -- intros i Hi. destruct (decide (i = s)) as [-> | Hne].
           ++ rewrite Hout by lia. congruence.
           ++ rewrite <- Hother by exact Hne. apply Hin. lia.
        -- intros j Hj. rewrite Hout by lia. apply Hother. lia.
      * destruct IH as (i & Hi & Hr). exists i. split; [lia | ].
        rewrite <- Hother by lia. exact Hr.
      * destruct IH as (i & Hi & Hr). exists i. split; [lia | ].
        rewrite <- Hother by lia. exact Hr.
    + rewrite Hb. exists s. split; [lia | exact Hstep].
    + rewrite Hb. exists s. split; [lia | exact Hstep].
Qed.

End Pointwise.

Lemma grid_ext (ax1 ax2 : nat -> list (Z * fixed32_t)) (n : nat) :
  (forall i : nat, (i < n)%nat -> ax1 i = ax2 i) -> grid ax1 n = grid ax2 n.
Proof.
  induction n as [ | n IH]; intros Hax; simpl; [reflexivity | ].
  rewrite IH by (intros i Hi; apply Hax; lia).
  rewrite (Hax n) by lia. reflexivity.
Qed.

Lemma flat_map_nil {X Y} (f : X -> list Y) (l : list X) :
  (forall x : X, f x = []) -> flat_map f l = [].
Proof.
  intros Hf. induction l as [ | x l IH]; simpl; [reflexivity | ].
  rewrite Hf, IH. reflexivity.
Qed.

(** A nest with an axis that has no iteration makes no call. *)
Lemma grid_nil (ax : nat -> list (Z * fixed32_t)) (n i : nat) :
  (i < n)%nat -> ax i = [] -> grid ax n = [].
Proof.
  induction n as [ | n IH]; intros Hi Hnil; [lia | ]. simpl.
  destruct (decide (i = n)) as [-> | Hne].
  - rewrite Hnil. reflexivity.
  - apply flat_map_nil. intros ks. rewrite IH by (lia || assumption).
    reflexivity.
Qed.

(** First loop: the mask endpoints of every axis are put in order. *)
Lemma normalize_mask_spec (dimensions : nat) (mask : Area Z) :
  length (a mask) = dimensions -> length (b mask) = dimensions ->
  exists mask' : Area Z,
    for_each normalize_mask (seq 0 dimensions) mask = Continue mask' /\
    forall i : nat, (i < dimensions)%nat ->
      a mask' !!! i = Z.min (a mask !!! i) (b mask !!! i) /\
      b mask' !!! i = Z.max (a mask !!! i) (b mask !!! i).
Proof.
  intros Hla Hlb.
  pose proof (for_each_pointwise dimensions
    (fun m : Area Z => length (a m) = dimensions /\ length (b m) = dimensions)
    (fun m i => (a m !!! i, b m !!! i))
    normalize_mask
    (fun _ v => Continue (Z.min v.1 v.2, Z.max v.1 v.2))) as Hloop.
  specialize (Hloop ltac:(
    intros i m Hi [Ha Hb]; simpl; eexists; split; [reflexivity | ];
    cbn [greater int_comparable];
    destruct (Z.gtb_spec (a m !!! i) (b m !!! i)); simpl;
    rewrite ?length_insert, ?list_lookup_total_insert_eq by lia;
    (split; [split; assumption | ]);
    (split; [f_equal; lia | ]);
    intros j Hj; rewrite ?list_lookup_total_insert_ne by congruence;
    reflexivity)).
  specialize (Hloop dimensions 0%nat mask ltac:(lia) (conj Hla Hlb)).
  destruct (for_each normalize_mask (seq 0 dimensions) mask)
    as [mask' | | e].
  - exists mask'. split; [reflexivity | ].
    destruct Hloop as (_ & Hin & _). intros i Hi.
    specialize (Hin i ltac:(lia)). simpl in Hin.
    injection Hin as Ha Hb. split; congruence.
  - destruct Hloop as (i & _ & Hstep). discriminate.
  - destruct Hloop as (i & _ & Hstep). discriminate.
Qed.

(** Second loop: [scale] returns at the first degenerate axis. *)
Lemma reject_degenerate_spec (dst : Area Z) (src : Area fixed32_t)
    (indices : list nat) :
  for_each (reject_degenerate dst src) indices tt
  = if existsb (degenerate dst src) indices then Return else Continue tt.
Proof.
  induction indices as [ | i rest IH]; simpl; [reflexivity | ].
  unfold reject_degenerate at 1, degenerate at 1.
  destruct (equal (a dst !!! i) (b dst !!! i)); [reflexivity | ].
  destruct (equal (a src !!! i) (b src !!! i)); [reflexivity | ].
  exact IH.
Qed.

(** Third loop: the body at axis [i] is [axis_step] on the entries of
    axis [i], and leaves the other axes alone. *)
Lemma scale_axis_local (dimensions : nat) (mask : Area Z) (i : nat) (l : locals) :
  (i < dimensions)%nat -> locals_wf dimensions l ->
  match axis_step (a mask !!! i) (b mask !!! i) (view l i) with
  | Continue v =>
    exists l' : locals,
      scale_axis mask i l = Continue l' /\ locals_wf dimensions l' /\
      view l' i = v /\
      forall j : nat, j <> i -> view l' j = view l j
  | Return => scale_axis mask i l = Return
  | Fail e => scale_axis mask i l = Fail e
  end.
Proof.
  intros Hi (H1 & H2 & H3 & H4 & H5 & H6).
  unfold axis_step, scale_axis, view, locals_wf, internal.swap.
  cbn [ax_dst_a ax_dst_b ax_src_a ax_src_b].
  destruct (greater (a (dst_area l) !!! i) (b (dst_area l) !!! i));
    cbn [a b]; rewrite ?list_lookup_total_insert_eq by lia;
    (destruct (less _ (a mask !!! i) || negb (less _ (b mask !!! i)));
       [reflexivity | ]);
    (destruct (wrap 32 _ =? 0); [reflexivity | ]);
    (eexists; split; [reflexivity | ]);
    destruct (less _ (a mask !!! i)); cbn [a b];
    rewrite ?list_lookup_total_insert_eq by (rewrite ?length_insert; lia);
    destruct (negb (less _ (b mask !!! i)));
    cbn [a b dst_area src_area src_delta src_start];
    rewrite ?length_insert;
    rewrite ?list_lookup_total_insert_eq by (rewrite ?length_insert; lia);
    (split; [tauto | ]);
    (split; [reflexivity | ]);
    intros j Hj;
    rewrite ?list_lookup_total_insert_ne by congruence; reflexivity.
Qed.

Lemma wrap32_nonzero (x : Z) : 0 < x < 2 ^ 32 -> wrap 32 x <> 0.
Proof.
  unfold wrap. change (2 ^ (32 - 1)) with 2147483648.
  change (2 ^ 32) with 4294967296. intros Hx.
  pose proof (Z.div_mod (x + 2147483648) 4294967296 ltac:(lia)).
  pose proof (Z.mod_pos_bound (x + 2147483648) 4294967296 ltac:(lia)).
  lia.
Qed.

Lemma in_range32 (x : Z) : in_range 32 x <-> - 2147483648 <= x < 2147483648.
Proof. reflexivity. Qed.

(** The division of the third loop never has a zero divisor: the axis is
    not degenerate when the loop reaches it. *)
Lemma axis_step_no_fault (ma mb : Z) (v : axis) (e : error) :
  in_range 32 (ax_dst_a v) -> in_range 32 (ax_dst_b v) ->
  ax_dst_a v <> ax_dst_b v ->
  axis_step ma mb v <> Fail e.
Proof.
  rewrite !in_range32. intros Ha Hb Hne. unfold axis_step.
  cbn [greater less int_comparable].
  destruct (Z.gtb_spec (ax_dst_a v) (ax_dst_b v));
    (destruct (_ || _); [discriminate | ]);
    match goal with
    | |- context [wrap 32 ?x =? 0] =>
      destruct (Z.eqb_spec (wrap 32 x) 0) as [H0 | _]; [ | discriminate];
      exfalso; revert H0; apply wrap32_nonzero;
      change (2 ^ 32) with 4294967296; lia
    end.
Qed.

(** The clipped destination range is made of endpoints of the call. *)
Lemma axis_step_range (ma mb : Z) (v v' : axis) :
  in_range 32 (ax_dst_a v) -> in_range 32 (ax_dst_b v) ->
  in_range 32 ma -> in_range 32 mb ->
  axis_step ma mb v = Continue v' ->
  in_range 32 (ax_dst_a v') /\ in_range 32 (ax_dst_b v').
Proof.
  intros Ha Hb Hma Hmb. unfold axis_step.
  destruct (greater (ax_dst_a v) (ax_dst_b v));
    (destruct (_ || _); [discriminate | ]);
    (destruct (wrap 32 _ =? 0); [discriminate | ]);
    intros [= <-]; cbn [ax_dst_a ax_dst_b];
    split; repeat match goal with |- context [if ?c then _ else _] =>
                    destruct c end; assumption.
Qed.

Lemma extend_nil (t : list (Point Z * Point fixed32_t)) : extend [] [] t = t.
Proof.
  unfold extend. rewrite <- (map_id t) at 2. apply map_ext.
  intros [d x]. simpl. rewrite !app_nil_r. reflexivity.
Qed.

Lemma degenerate_no_calls (dst : Area Z) (src : Area fixed32_t) (mask : Area Z)
    (i : nat) :
  degenerate dst src i = true -> axis_calls_at dst src mask i = [].
Proof.
  unfold degenerate, axis_calls_at, axis_calls. intros ->. reflexivity.
Qed.

Section ScaleSpec.

Variable dimensions : nat.
Variable dst : Area Z.
Variable src : Area fixed32_t.
Variable mask : Area Z.

Hypothesis Hwf : well_formed dimensions dst src mask.

(** The three loops of [scale] never divide by zero; they return early
    only when some axis has no call; otherwise every axis is not
    degenerate and its entries are those of [axis_step]. *)
Lemma prepare_spec :
  match prepare dimensions dst src mask with
  | Continue l =>
    locals_wf dimensions l /\
    forall i : nat, (i < dimensions)%nat ->
      degenerate dst src i = false /\
      axis_step (Z.min (a mask !!! i) (b mask !!! i))
                (Z.max (a mask !!! i) (b mask !!! i))
                (Axis (a dst !!! i) (b dst !!! i) (a src !!! i) (b src !!! i)
                      inhabitant inhabitant)
      = Continue (view l i)
  | Return =>
    exists i : nat, (i < dimensions)%nat /\ axis_calls_at dst src mask i = []
  | Fail e => False
  end.
Proof.
  destruct Hwf as (Hdim & [[Hda Hdar] [Hdb Hdbr]] & [[Hsa _] [Hsb _]]
                   & [[Hma Hmar] [Hmb Hmbr]]).
  unfold prepare.
  destruct (normalize_mask_spec dimensions mask Hma Hmb) as (mask' & -> & Hmask').
  rewrite reject_degenerate_spec.
  destruct (existsb (degenerate dst src) (seq 0 dimensions)) eqn:Hdeg.
  { apply existsb_exists in Hdeg as (i & Hi%in_seq & Hdeg).
    exists i. split; [lia | apply degenerate_no_calls, Hdeg]. }
  assert (Hnd : forall i : nat, (i < dimensions)%nat ->
                                degenerate dst src i = false).
  { intros i Hi. destruct (degenerate dst src i) eqn:Hd; [ | reflexivity].
    rewrite <- Hdeg. symmetry. apply existsb_exists. exists i.
    split; [apply in_seq; lia | exact Hd]. }
  set (l0 := Locals dst src (fresh dimensions) (fresh dimensions)).
  assert (Hl0 : locals_wf dimensions l0).
  { unfold locals_wf, l0, fresh. simpl. rewrite !length_replicate. tauto. }
  pose proof (for_each_pointwise dimensions (locals_wf dimensions) view
                (scale_axis mask')
                (fun i => axis_step (a mask' !!! i) (b mask' !!! i))
                (fun i l => scale_axis_local dimensions mask' i l)
                dimensions 0%nat l0 ltac:(lia) Hl0) as Hloop.
  assert (Hsame : forall i : nat, (i < dimensions)%nat ->
    axis_step (Z.min (a mask !!! i) (b mask !!! i))
              (Z.max (a mask !!! i) (b mask !!! i))
              (Axis (a dst !!! i) (b dst !!! i) (a src !!! i) (b src !!! i)
                    inhabitant inhabitant)
    = axis_step (a mask' !!! i) (b mask' !!! i) (view l0 i)).
  { intros i Hi. destruct (Hmask' i Hi) as [-> ->]. reflexivity. }
  destruct (for_each (scale_axis mask') (seq 0 dimensions) l0) as [l | | e].
  - destruct Hloop as (Hwf' & Hin & _). split; [exact Hwf' | ].
    intros i Hi. split; [apply Hnd, Hi | ].
    rewrite Hsame by exact Hi. apply Hin. lia.
  - destruct Hloop as (i & Hi & Hret). exists i. split; [lia | ].
    unfold axis_calls_at, axis_calls. destruct (_ || _); [reflexivity | ].
    rewrite Hsame, Hret by lia. reflexivity.
  - destruct Hloop as (i & Hi & Hfail). revert Hfail.
    pose proof (Forall_lookup_total_1 _ _ i Hdar ltac:(lia)).
    pose proof (Forall_lookup_total_1 _ _ i Hdbr ltac:(lia)).
    pose proof (Hnd i ltac:(lia)) as Hne. unfold degenerate in Hne.
    apply orb_false_elim in Hne as [Hne _]. apply Z.eqb_neq in Hne.
    apply axis_step_no_fault; assumption.
Qed.

(** The traversal that [scale] starts is over the per-axis calls. *)
Lemma prepare_samples (l : locals) (i : nat) :
  prepare dimensions dst src mask = Continue l -> (i < dimensions)%nat ->
  axis_samples (dst_area l) (src_start l) (src_delta l) i
  = axis_calls_at dst src mask i /\
  in_range 32 (a (dst_area l) !!! i) /\ in_range 32 (b (dst_area l) !!! i).
Proof.
  intros Hprep Hi. pose proof prepare_spec as Hspec. rewrite Hprep in Hspec.
  destruct Hspec as (_ & Hax). destruct (Hax i Hi) as [Hd Hstep].
  destruct Hwf as (Hdim & [[Hda Hdar] [Hdb Hdbr]] & _
                   & [[Hma Hmar] [Hmb Hmbr]]).
  split.
  - unfold axis_calls_at, axis_calls. unfold degenerate in Hd.
    rewrite Hd, Hstep. reflexivity.
  - apply axis_step_range in Hstep; [exact Hstep | cbn ..].
    + apply Forall_lookup_total_1; [assumption | lia].
    + apply Forall_lookup_total_1; [assumption | lia].
    + pose proof (Forall_lookup_total_1 _ _ i Hmar ltac:(lia)).
      pose proof (Forall_lookup_total_1 _ _ i Hmbr ltac:(lia)).
      unfold in_range in *. lia.
    + pose proof (Forall_lookup_total_1 _ _ i Hmar ltac:(lia)).
      pose proof (Forall_lookup_total_1 _ _ i Hmbr ltac:(lia)).
      unfold in_range in *. lia.
Qed.

Context {state : Type}.
Variable processor : Point Z -> Point fixed32_t -> state -> state.

(** [scale] returns, and what it does to the state of its processor is
    to run it over the nest of the per-axis calls, axis 0 innermost. *)
Lemma scale_spec (s : state) :
  scale dimensions dst src processor mask s
  = Ok (run processor (grid (axis_calls_at dst src mask) dimensions) s).
Proof.
  unfold scale. pose proof prepare_spec as Hspec.
  pose proof prepare_samples as Hax.
  destruct (prepare dimensions dst src mask)
    as [[dst' src' delta' start'] | | e].
  - destruct Hspec as ((Hl1 & Hl2 & _) & _). simpl in Hl1, Hl2.
    specialize (fun i => Hax _ i eq_refl). simpl in Hax.
    assert (Hdim : (0 < dimensions)%nat) by apply Hwf.
    destruct (iterator_spec processor dst' start' delta' (dimensions - 1)
                ltac:(intros i Hi; apply Hax; lia)
                (internal.Cursor (fresh dimensions) (fresh dimensions) s))
      as (c' & -> & Hs & _).
    + unfold fresh. simpl. rewrite length_replicate. lia.
    + unfold fresh. simpl. rewrite length_replicate. lia.
    + rewrite Hs.
      cbn [internal.dst_index internal.src_index internal.captured].
      replace (S (dimensions - 1)) with dimensions by lia.
      rewrite !drop_ge by (unfold fresh; rewrite length_replicate; lia).
      rewrite extend_nil.
      rewrite (grid_ext _ (axis_calls_at dst src mask));
        [reflexivity | intros i Hi; apply Hax, Hi].
  - destruct Hspec as (i & Hi & Hnil).
    rewrite (grid_nil _ dimensions i); [reflexivity | lia | exact Hnil].
  - destruct Hspec.
Qed.

End ScaleSpec.

Lemma run_record_call (t t0 : list (Point Z * Point fixed32_t)) :
  run record_call t t0 = t0 ++ t.
Proof.
  revert t0. induction t as [ | [d x] t IH]; intros t0.
  - simpl. rewrite app_nil_r. reflexivity.
  - change (run record_call ((d, x) :: t) t0)
      with (run record_call t (record_call d x t0)).
    rewrite IH. unfold record_call. rewrite <- app_assoc. reflexivity.
Qed.

(** The calls of [scale] are the nest of the per-axis calls. *)
Lemma calls_spec (dimensions : nat) (dst : Area Z) (src : Area fixed32_t)
    (mask : Area Z) :
  well_formed dimensions dst src mask ->
  calls dimensions dst src mask
  = Ok (grid (axis_calls_at dst src mask) dimensions).
Proof.
  intros Hwf. unfold calls. rewrite scale_spec by exact Hwf.
  rewrite run_record_call. reflexivity.
Qed.

(** ** One axis in normal form *)

Lemma axis_step_normal (da db : Z) (sa sb d0 s0 : fixed32_t) (ma mb : Z) :
  in_range 32 da -> in_range 32 db -> da <> db ->
  axis_step ma mb (Axis da db sa sb d0 s0)
  = if (Z.max da db <? ma) || (mb <=? Z.min da db) then Return
    else Continue (Axis (Z.max (Z.min da db) ma) (Z.min (Z.max da db) mb)
                        (src_from da db sa sb) (src_to da db sa sb)
                        (axis_delta da db sa sb)
                        (axis_start_clipped da db sa sb ma)).
Proof.
  rewrite !in_range32. intros Ha Hb Hne.
  unfold axis_step, axis_start_clipped, axis_start, axis_delta,
    src_from, src_to.
  cbn [greater less int_comparable ax_dst_a ax_dst_b ax_src_a ax_src_b].
  destruct (Z.gtb_spec da db) as [Hgt | Hle].
  - rewrite (Z.max_l da db), (Z.min_r da db) by lia.
    destruct (Z.ltb_spec da ma), (Z.ltb_spec db mb), (Z.leb_spec mb db);
      try lia; cbn [orb negb]; try reflexivity;
      (destruct (Z.eqb_spec (wrap 32 (da - db)) 0) as [Hzero | _];
       [exfalso; revert Hzero; apply wrap32_nonzero;
        change (2 ^ 32) with 4294967296; lia | ]);
      destruct (Z.ltb_spec db ma), (Z.ltb_spec da mb);
      try lia; cbn [negb]; f_equal; f_equal; lia.
  - rewrite (Z.max_r da db), (Z.min_l da db) by lia.
    destruct (Z.ltb_spec db ma), (Z.ltb_spec da mb), (Z.leb_spec mb da);
      try lia; cbn [orb negb]; try reflexivity;
      (destruct (Z.eqb_spec (wrap 32 (db - da)) 0) as [Hzero | _];
       [exfalso; revert Hzero; apply wrap32_nonzero;
        change (2 ^ 32) with 4294967296; lia | ]);
      destruct (Z.ltb_spec da ma), (Z.ltb_spec db mb);
      try lia; cbn [negb]; f_equal; f_equal; lia.
Qed.

(** The calls on an axis that is not degenerate: none when the
    destination range lies outside the mask; otherwise the loop runs
    over the part of the destination range inside the mask, from the
    compensated start. *)
Lemma axis_calls_normal (da db : Z) (sa sb : fixed32_t) (ma mb : Z) :
  in_range 32 da -> in_range 32 db ->
  equal da db || equal sa sb = false ->
  axis_calls da db sa sb ma mb
  = if (Z.max da db <? Z.min ma mb) || (Z.max ma mb <=? Z.min da db) then []
    else samples (Z.to_nat (Z.min (Z.max da db) (Z.max ma mb)
                            - Z.max (Z.min da db) (Z.min ma mb)))
                 (Z.max (Z.min da db) (Z.min ma mb))
                 (axis_start_clipped da db sa sb (Z.min ma mb))
                 (axis_delta da db sa sb).
Proof.
  intros Ha Hb Hnd. unfold axis_calls. rewrite Hnd.
  apply orb_false_elim in Hnd as [Hne _]. apply Z.eqb_neq in Hne.
  rewrite axis_step_normal by assumption.
  destruct (_ || _); reflexivity.
Qed.

Lemma samples_bounds (n : nat) (k0 : Z) (s delta : fixed32_t)
    (k : Z) (x : fixed32_t) :
  In (k, x) (samples n k0 s delta) -> k0 <= k < k0 + Z.of_nat n.
Proof.
  revert k0 s. induction n as [ | n IH]; intros k0 s; simpl; [tauto | ].
  intros [[= <- _] | Hin]; [lia | ]. apply IH in Hin. lia.
Qed.

(** Every call on an axis has its destination index inside the
    normalized mask and inside the normalized destination range. *)
Lemma axis_calls_inside (da db : Z) (sa sb : fixed32_t) (ma mb : Z)
    (k : Z) (x : fixed32_t) :
  in_range 32 da -> in_range 32 db ->
  In (k, x) (axis_calls da db sa sb ma mb) ->
  Z.min ma mb <= k < Z.max ma mb /\ Z.min da db <= k < Z.max da db.
Proof.
  intros Ha Hb. destruct (equal da db || equal sa sb) eqn:Hnd.
  - unfold axis_calls. rewrite Hnd. cbn. intros Hf. destruct Hf.
  - rewrite axis_calls_normal by assumption.
    destruct ((_ <? _) || _); [cbn; intros Hf; destruct Hf | ].
    intros Hin%samples_bounds. lia.
Qed.

(** Every call of a nest has one coordinate per axis, each from a call
    on that axis. *)
Lemma grid_coords (ax : nat -> list (Z * fixed32_t)) (n : nat)
    (d : Point Z) (x : Point fixed32_t) :
  In (d, x) (grid ax n) ->
  length d = n /\ length x = n /\
  forall i : nat, (i < n)%nat -> In (d !!! i, x !!! i) (ax i).
Proof.
  revert d x. induction n as [ | n IH]; intros d x; simpl.
  - intros [[= <- <-] | []]. repeat split; intros; lia.
  - intros (ks & Hks & Hin)%in_flat_map.
    apply in_map_iff in Hin as ([d0 x0] & [= <- <-] & Hin0).
    destruct (IH _ _ Hin0) as (Hd & Hx & Hcoord). simpl.
    rewrite !length_app. simpl. repeat split; try lia.
    intros i Hi. destruct (decide (i = n)) as [-> | Hne].
    + rewrite !lookup_total_app_r by lia.
      rewrite Hd, Hx, Nat.sub_diag. simpl. destruct ks. exact Hks.
    + rewrite !lookup_total_app_l by lia. apply Hcoord. lia.
Qed.

(** ** Early returns *)

Lemma normalize_mask_continues (indices : list nat) (mask : Area Z) :
  exists mask' : Area Z, for_each normalize_mask indices mask = Continue mask'.
Proof.
  revert mask. induction indices as [ | i rest IH]; intros mask; simpl.
  - exists mask. reflexivity.
  - apply IH.
Qed.

Lemma prepare_degenerate (dimensions : nat) (dst : Area Z)
    (src : Area fixed32_t) (mask : Area Z) (i : nat) :
  (i < dimensions)%nat -> degenerate dst src i = true ->
  prepare dimensions dst src mask = Return.
Proof.
  intros Hi Hdeg. unfold prepare.
  destruct (normalize_mask_continues (seq 0 dimensions) mask) as [mask' ->].
  rewrite reject_degenerate_spec.
  replace (existsb (degenerate dst src) (seq 0 dimensions)) with true;
    [reflexivity | ].
  symmetry. apply existsb_exists. exists i.
  split; [apply in_seq; lia | exact Hdeg].
Qed.

(** C5: when some axis of the destination area or of the source area has
    equal endpoints, [scale] returns without a call of the processor,
    whatever the processor, its state and the mask are; and on
    well-formed arguments no run of [scale] divides by zero: the divisor
    of line 336 is never zero. When moreover no destination width
    overflows [int32_t], the three loops end without any fault and
    [scale] returns. *)
Theorem scale_degenerate_noop {state : Type} (dimensions : nat)
    (dst : Area Z) (src : Area fixed32_t)
    (processor : Point Z -> Point fixed32_t -> state -> state)
    (mask : Area Z) (s : state) :
  ((exists i : nat, (i < dimensions)%nat /\
      (a dst !!! i = b dst !!! i \/ a src !!! i = b src !!! i)) ->
   scale dimensions dst src processor mask s = Ok s /\
   calls dimensions dst src mask = Ok []) /\
  (well_formed dimensions dst src mask ->
   prepare dimensions dst src mask <> Fail DivisionByZero /\
   (width_fits dimensions dst ->
    (forall e : error, prepare dimensions dst src mask <> Fail e) /\
    exists s' : state, scale dimensions dst src processor mask s = Ok s')).
Proof.
  split.
  - intros (i & Hi & Heq).
    assert (Hdeg : degenerate dst src i = true).
    { unfold degenerate. cbn [equal int_comparable fixed_comparable].
      destruct Heq as [-> | ->]; rewrite Z.eqb_refl;
        [reflexivity | apply orb_true_r]. }
    unfold calls, scale.
    rewrite (prepare_degenerate dimensions dst src mask i Hi Hdeg).
    split; reflexivity.
  - intros Hwf.
    assert (Hnofail : forall e : error,
              prepare dimensions dst src mask <> Fail e).
    { intros e He. pose proof (prepare_spec dimensions dst src mask Hwf) as Hp.
      rewrite He in Hp. exact Hp. }
    split; [apply Hnofail | ]. intros _. split; [exact Hnofail | ].
    eexists. apply scale_spec, Hwf.
Qed.

Lemma scale_degenerate_noop_witness :
  (scale 2 (mkArea [0; 5] [4; 5]) (mkArea [of_int 0; of_int 0]
                                          [of_int 8; of_int 8])
         record_call (mkArea [0; 0] [9; 9]) [] = Ok [] /\
   calls 2 (mkArea [0; 5] [4; 5]) (mkArea [of_int 0; of_int 0]
                                          [of_int 8; of_int 8])
         (mkArea [0; 0] [9; 9]) = Ok []) /\
  exists s' : list (Point Z * Point fixed32_t),
    scale 2 (mkArea [0; 5] [4; 5]) (mkArea [of_int 0; of_int 0]
                                           [of_int 8; of_int 8])
          record_call (mkArea [0; 0] [9; 9]) [] = Ok s'.
Proof.
  destruct (scale_degenerate_noop 2 (mkArea [0; 5] [4; 5])
              (mkArea [of_int 0; of_int 0] [of_int 8; of_int 8])
              record_call (mkArea [0; 0] [9; 9]) []) as [Hnoop Htotal].
  split.
  - apply Hnoop. exists 1%nat. split; [lia | left; reflexivity].
  - destruct Htotal as [_ Hreturns]; [well_formed_by_evaluation | ].
    apply Hreturns.
    intros i Hi. destruct i as [ | [ | i] ]; [by_evaluation | by_evaluation | lia].
Defined.


Lemma well_formed_lookup (dimensions : nat) (dst : Area Z)
    (src : Area fixed32_t) (mask : Area Z) (i : nat) :
  well_formed dimensions dst src mask -> (i < dimensions)%nat ->
  in_range 32 (a dst !!! i) /\ in_range 32 (b dst !!! i) /\
  in_range 32 (value_bits (a src !!! i)) /\
  in_range 32 (value_bits (b src !!! i)) /\
  in_range 32 (a mask !!! i) /\ in_range 32 (b mask !!! i).
Proof.
  intros (_ & [[Hda Hdar] [Hdb Hdbr]] & [[Hsa Hsar] [Hsb Hsbr]]
          & [[Hma Hmar] [Hmb Hmbr]]) Hi.
  pose proof (Forall_lookup_total_1 _ _ i Hdar ltac:(lia)).
  pose proof (Forall_lookup_total_1 _ _ i Hdbr ltac:(lia)).
  pose proof (Forall_lookup_total_1 _ _ i Hsar ltac:(lia)).
  pose proof (Forall_lookup_total_1 _ _ i Hsbr ltac:(lia)).
  pose proof (Forall_lookup_total_1 _ _ i Hmar ltac:(lia)).
  pose proof (Forall_lookup_total_1 _ _ i Hmbr ltac:(lia)).
  tauto.
Qed.



(** ** The mask bounds every call *)



(** ** The source start of an axis *)

Lemma to_int_lt (x y : fixed32_t) :
  to_int x < to_int y -> value_bits x < value_bits y.
Proof.
  rewrite !to_int_floor by lia. intros Hlt.
  destruct (Z.lt_ge_cases (value_bits x) (value_bits y)) as [H | H];
    [exact H | ].
  pose proof (Z.div_le_mono _ _ (2 ^ 15) ltac:(lia) H). lia.
Qed.

(** [internal::min] and [internal::max] compare the integer parts; on
    values whose integer parts differ that orders the values themselves. *)
Lemma min_fixed (x y : fixed32_t) :
  to_int x <> to_int y ->
  value_bits (internal.min x y) = Z.min (value_bits x) (value_bits y).
Proof.
  intros Hne. unfold internal.min. cbn [less fixed_comparable].
  destruct (Z.ltb_spec (to_int x) (to_int y)) as [Hlt | Hge].
  - apply to_int_lt in Hlt. lia.
  - assert (Hlt : to_int y < to_int x) by lia. apply to_int_lt in Hlt. lia.
Qed.

Lemma max_fixed (x y : fixed32_t) :
  to_int x <> to_int y ->
  value_bits (internal.max x y) = Z.max (value_bits x) (value_bits y).
Proof.
  intros Hne. unfold internal.max. cbn [greater fixed_comparable].
  destruct (Z.gtb_spec (to_int x) (to_int y)) as [Hgt | Hle].
  - assert (Hlt : to_int y < to_int x) by lia. apply to_int_lt in Hlt. lia.
  - assert (Hlt : to_int x < to_int y) by lia. apply to_int_lt in Hlt. lia.
Qed.

Lemma axis_start_min_max (da db : Z) (sa sb : fixed32_t) :
  to_int sa <> to_int sb ->
  value_bits (axis_start da db sa sb)
  = if value_bits (axis_delta da db sa sb) >=? 0
    then Z.min (value_bits sa) (value_bits sb)
    else wrap 32 (Z.max (value_bits sa) (value_bits sb)
                  + value_bits (axis_delta da db sa sb)).
Proof.
  intros Hne. unfold axis_start.
  destruct (value_bits (axis_delta da db sa sb) >=? 0).
  - rewrite min_fixed; unfold src_from, src_to; destruct (da >? db);
      (lia || congruence).
  - unfold add, add_assign. cbn [value_bits]. rewrite max_fixed;
      unfold src_from, src_to; destruct (da >? db);
      ((f_equal; lia) || congruence).
Qed.

(** C7: on every axis for which [scale] computes a source start (the
    axis is not degenerate and the call reaches the traversal), the start
    of line 337 is the smaller of the two source endpoints when the step
    is not negative and the larger one plus the step otherwise, smaller
    and larger being those of the fixed-point values with their
    fractional parts; the start that the traversal receives is this value,
    advanced by [delta * (mask.a - destination.a)] when the mask begins
    after the destination range. *)
Theorem source_start_min_max (dimensions : nat) (dst : Area Z)
    (src : Area fixed32_t) (mask : Area Z) (l : locals) (i : nat) :
  well_formed dimensions dst src mask ->
  prepare dimensions dst src mask = Continue l ->
  (i < dimensions)%nat ->
  let sa := value_bits (a src !!! i) in
  let sb := value_bits (b src !!! i) in
  let delta := value_bits (src_delta l !!! i) in
  let start :=
    if delta >=? 0 then Z.min sa sb else wrap 32 (Z.max sa sb + delta) in
  let lo := Z.min (a dst !!! i) (b dst !!! i) in
  let ma := Z.min (a mask !!! i) (b mask !!! i) in
  src_delta l !!! i = axis_delta (a dst !!! i) (b dst !!! i)
                                 (a src !!! i) (b src !!! i) /\
  value_bits (axis_start (a dst !!! i) (b dst !!! i)
                         (a src !!! i) (b src !!! i)) = start /\
  value_bits (src_start l !!! i)
  = if lo <? ma then wrap 32 (start + wrap 32 (delta * wrap 32 (ma - lo)))
    else start.
Proof.
  intros Hwf Hprep Hi.
  pose proof (prepare_spec dimensions dst src mask Hwf) as Hspec.
  rewrite Hprep in Hspec. destruct Hspec as (_ & Hax).
  destruct (Hax i Hi) as [Hnd Hstep].
  destruct (well_formed_lookup _ _ _ _ i Hwf Hi) as (Ha & Hb & _).
  unfold degenerate in Hnd. apply orb_false_elim in Hnd as [Hd Hs].
  apply Z.eqb_neq in Hd. apply Z.eqb_neq in Hs.
  rewrite axis_step_normal in Hstep by assumption.
  destruct (_ || _) in Hstep; [discriminate | ].
  injection Hstep as _ _ _ _ Hdelta Hstart.
  cbv zeta. rewrite <- Hdelta, <- Hstart.
  rewrite axis_start_min_max by exact Hs.
  split; [reflexivity | split; [reflexivity | ] ].
  unfold axis_start_clipped.
  destruct (Z.min (a dst !!! i) (b dst !!! i)
            <? Z.min (a mask !!! i) (b mask !!! i)); [ | ].
  - cbn [value_bits]. rewrite axis_start_min_max by exact Hs. reflexivity.
  - apply axis_start_min_max, Hs.
Qed.

Lemma source_start_min_max_witness :
  exists l : locals,
    prepare 1 (mkArea [0] [4]) (mkArea [of_int 9] [of_int 1])
            (mkArea [2] [4]) = Continue l /\
    value_bits (src_delta l !!! 0%nat) = - 65536 /\
    value_bits (src_start l !!! 0%nat)
    = wrap 32 (wrap 32 (Z.max 294912 32768 + - 65536)
               + wrap 32 (- 65536 * wrap 32 (2 - 0))).
Proof.
  eexists. split; [reflexivity | ]. split; [reflexivity | ].
  refine (proj2 (proj2 (source_start_min_max 1 (mkArea [0] [4])
            (mkArea [of_int 9] [of_int 1]) (mkArea [2] [4]) _ 0%nat
            _ eq_refl _))).
  - well_formed_by_evaluation.
  - lia.
Defined.

(** ** A mask that covers the destination *)

(** A mask that covers the destination range clips nothing: the loop
    runs over the whole range from the start of line 337. *)
Lemma axis_calls_covered (da db : Z) (sa sb : fixed32_t) (ma mb : Z) :
  in_range 32 da -> in_range 32 db ->
  equal da db || equal sa sb = false ->
  Z.min ma mb <= Z.min da db -> Z.max da db <= Z.max ma mb ->
  axis_calls da db sa sb ma mb
  = samples (Z.to_nat (Z.max da db - Z.min da db)) (Z.min da db)
            (axis_start da db sa sb) (axis_delta da db sa sb).
Proof.
  intros Ha Hb Hnd Hlo Hhi. rewrite axis_calls_normal by assumption.
  apply orb_false_elim in Hnd as [Hne _]. apply Z.eqb_neq in Hne.
  unfold axis_start_clipped.
  destruct (Z.ltb_spec (Z.max da db) (Z.min ma mb)),
    (Z.leb_spec (Z.max ma mb) (Z.min da db)),
    (Z.ltb_spec (Z.min da db) (Z.min ma mb)); try lia.
  cbn [orb]. f_equal; lia.
Qed.

(** A nest of one axis. *)
Lemma grid_1 (ax : nat -> list (Z * fixed32_t)) :
  grid ax 1 = map (fun ks => ([ks.1], [ks.2])) (ax 0%nat).
Proof.
  simpl. induction (ax 0%nat) as [ | ks l IH]; simpl; [reflexivity | ].
  rewrite IH. reflexivity.
Qed.

(** C4: the call with destination [0,2) x [0,2), source [0,4) x [0,4)
    and any mask that covers the destination invokes the processor four
    times, at the four destination pairs in nested order, axis 0
    innermost; every call receives both coordinates, with the source
    coordinate at twice the destination coordinate. *)
Theorem scale_2d_nested_order (ma0 ma1 mb0 mb1 : Z) :
  in_range 32 ma0 -> in_range 32 ma1 ->
  in_range 32 mb0 -> in_range 32 mb1 ->
  Z.min ma0 mb0 <= 0 -> 2 <= Z.max ma0 mb0 ->
  Z.min ma1 mb1 <= 0 -> 2 <= Z.max ma1 mb1 ->
  calls 2 (mkArea [0; 0] [2; 2])
        (mkArea [of_int 0; of_int 0] [of_int 4; of_int 4])
        (mkArea [ma0; ma1] [mb0; mb1])
  = Ok [ ([0; 0], [of_int 0; of_int 0]);
         ([1; 0], [of_int 2; of_int 0]);
         ([0; 1], [of_int 0; of_int 2]);
         ([1; 1], [of_int 2; of_int 2]) ].
Proof.
  intros Ha0 Ha1 Hb0 Hb1 Hlo0 Hhi0 Hlo1 Hhi1.
  rewrite calls_spec.
  - cbn [grid]. unfold axis_calls_at. cbn [a b].
    change ([0; 0] !!! 0%nat) with 0. change ([0; 0] !!! 1%nat) with 0.
    change ([2; 2] !!! 0%nat) with 2. change ([2; 2] !!! 1%nat) with 2.
    change ([ma0; ma1] !!! 0%nat) with ma0.
    change ([ma0; ma1] !!! 1%nat) with ma1.
    change ([mb0; mb1] !!! 0%nat) with mb0.
    change ([mb0; mb1] !!! 1%nat) with mb1.
    change ([of_int 0; of_int 0] !!! 0%nat) with (of_int 0 : fixed32_t).
    change ([of_int 0; of_int 0] !!! 1%nat) with (of_int 0 : fixed32_t).
    change ([of_int 4; of_int 4] !!! 0%nat) with (of_int 4 : fixed32_t).
    change ([of_int 4; of_int 4] !!! 1%nat) with (of_int 4 : fixed32_t).
    rewrite !axis_calls_covered by (by_evaluation || reflexivity).
    reflexivity.
  - well_formed_by_evaluation.
Qed.

Lemma scale_2d_nested_order_witness :
  calls 2 (mkArea [0; 0] [2; 2])
        (mkArea [of_int 0; of_int 0] [of_int 4; of_int 4])
        (mkArea [0; 5] [2; -1])
  = Ok [ ([0; 0], [of_int 0; of_int 0]);
         ([1; 0], [of_int 2; of_int 0]);
         ([0; 1], [of_int 0; of_int 2]);
         ([1; 1], [of_int 2; of_int 2]) ].
Proof.
  apply (scale_2d_nested_order 0 5 2 (-1)); by_evaluation.
Defined.

(** ** Clipping by the mask *)

Lemma samples_app (n1 n2 : nat) (k : Z) (s delta : fixed32_t) :
  samples (n1 + n2) k s delta
  = samples n1 k s delta
    ++ samples n2 (k + Z.of_nat n1) (advance n1 s delta) delta.
Proof.
  revert k s. induction n1 as [ | n1 IH]; intros k s.
  - simpl. rewrite Z.add_0_r. reflexivity.
  - cbn [samples advance Nat.add app]. rewrite IH.
    do 3 f_equal. lia.
Qed.

Lemma advance_value (n : nat) (s delta : fixed32_t) :
  (0 < n)%nat ->
  advance n s delta
  = Fixed (wrap 32 (value_bits s + Z.of_nat n * value_bits delta)).
Proof.
  revert s. induction n as [ | n IH]; intros s Hn; [lia | ].
  cbn [advance]. destruct n as [ | n].
  - cbn [advance]. unfold add_assign. do 2 f_equal. lia.
  - rewrite IH by lia. unfold add_assign. cbn [value_bits intinfo.bits].
    rewrite wrap_add_l by lia. do 2 f_equal. lia.
Qed.

Lemma filter_samples_none (p : Z -> bool) (n : nat) (k : Z)
    (s delta : fixed32_t) :
  (forall k' : Z, k <= k' < k + Z.of_nat n -> p k' = false) ->
  List.filter (fun ks => p ks.1) (samples n k s delta) = [].
Proof.
  revert k s. induction n as [ | n IH]; intros k s Hp; [reflexivity | ].
  cbn [samples List.filter fst]. rewrite (Hp k) by lia.
  apply IH. intros k' Hk'. apply Hp. lia.
Qed.

Lemma filter_samples_all (p : Z -> bool) (n : nat) (k : Z)
    (s delta : fixed32_t) :
  (forall k' : Z, k <= k' < k + Z.of_nat n -> p k' = true) ->
  List.filter (fun ks => p ks.1) (samples n k s delta) = samples n k s delta.
Proof.
  revert k s. induction n as [ | n IH]; intros k s Hp; [reflexivity | ].
  cbn [samples List.filter fst]. rewrite (Hp k) by lia.
  f_equal. apply IH. intros k' Hk'. apply Hp. lia.
Qed.

(** On one axis, the calls under a mask are the calls under a covering
    mask at the destination indices inside the mask: the compensation of
    line 339 puts the source index where the unclipped loop has it. *)
Lemma axis_calls_filter (da db : Z) (sa sb : fixed32_t) (ma mb ca cb : Z) :
  in_range 32 da -> in_range 32 db ->
  Z.min ca cb <= Z.min da db -> Z.max da db <= Z.max ca cb ->
  List.filter (fun ks => (Z.min ma mb <=? ks.1) && (ks.1 <? Z.max ma mb))
              (axis_calls da db sa sb ca cb)
  = axis_calls da db sa sb ma mb.
Proof.
  intros Ha Hb Hlo Hhi. destruct (equal da db || equal sa sb) eqn:Hnd.
  { unfold axis_calls. rewrite Hnd. reflexivity. }
  rewrite axis_calls_covered, axis_calls_normal by assumption.
  set (lo := Z.min da db). set (hi := Z.max da db).
  set (m1 := Z.min ma mb). set (m2 := Z.max ma mb).
  set (s := axis_start da db sa sb). set (delta := axis_delta da db sa sb).
  destruct (Z.ltb_spec hi m1) as [Hout1 | Hin1].
  { apply (filter_samples_none (fun k => (m1 <=? k) && (k <? m2))).
    intros k' Hk'. destruct (Z.leb_spec m1 k'); [lia | reflexivity]. }
  destruct (Z.leb_spec m2 lo) as [Hout2 | Hin2].
  { apply (filter_samples_none (fun k => (m1 <=? k) && (k <? m2))).
    intros k' Hk'. destruct (Z.ltb_spec k' m2); [lia | apply andb_false_r]. }
  cbn [orb].
  assert (Hord : lo <= hi /\ m1 <= m2) by lia.
  replace (Z.to_nat (hi - lo))
    with (Z.to_nat (Z.max lo m1 - lo)
          + (Z.to_nat (Z.min hi m2 - Z.max lo m1)
             + Z.to_nat (hi - Z.min hi m2)))%nat by lia.
  rewrite !samples_app, !List.filter_app.
  rewrite (filter_samples_none (fun k => (m1 <=? k) && (k <? m2)));
    [ | intros k' Hk'; destruct (Z.leb_spec m1 k'); [lia | reflexivity] ].
  rewrite (filter_samples_all (fun k => (m1 <=? k) && (k <? m2)));
    [ | intros k' Hk'; destruct (Z.leb_spec m1 k'), (Z.ltb_spec k' m2);
        (reflexivity || lia) ].
  rewrite (filter_samples_none (fun k => (m1 <=? k) && (k <? m2)));
    [ | intros k' Hk'; destruct (Z.ltb_spec k' m2);
        [lia | apply andb_false_r] ].
  rewrite app_nil_r. cbn [app].
  replace (lo + Z.of_nat (Z.to_nat (Z.max lo m1 - lo))) with (Z.max lo m1)
    by lia.
  f_equal. unfold axis_start_clipped. fold lo s delta.
  destruct (Z.ltb_spec lo m1) as [Hclip | Hnoclip].
  - rewrite advance_value by lia.
    replace (Z.of_nat (Z.to_nat (Z.max lo m1 - lo))) with (m1 - lo) by lia.
    rewrite wrap_mul_r, wrap_add_r by lia.
    rewrite (Z.mul_comm (value_bits delta)). reflexivity.
  - replace (Z.to_nat (Z.max lo m1 - lo)) with 0%nat by lia. reflexivity.
Qed.










(** ** Loops in closed form *)

Lemma ramp_S (n : nat) (k v delta : Z) :
  ramp (S n) k v delta
  = (k, Fixed (wrap 32 v)) :: ramp n (k + 1) (v + delta) delta.
Proof.
  unfold ramp. rewrite <- cons_seq, <- seq_shift. cbn [map].
  rewrite map_map. f_equal.
  - f_equal; [lia | do 2 f_equal; lia].
  - apply map_ext. intros j. f_equal; [lia | do 2 f_equal; lia].
Qed.

Lemma ramp_snoc (n : nat) (k v delta : Z) :
  ramp (S n) k v delta
  = ramp n k v delta
    ++ [(k + Z.of_nat n, Fixed (wrap 32 (v + Z.of_nat n * delta)))].
Proof. unfold ramp. rewrite seq_S, map_app. reflexivity. Qed.

Lemma samples_ramp_wrap (n : nat) (k v : Z) (delta : fixed32_t) :
  samples n k (Fixed (wrap 32 v)) delta = ramp n k v (value_bits delta).
Proof.
  revert k v. induction n as [ | n IH]; intros k v; [reflexivity | ].
  rewrite ramp_S. cbn [samples]. f_equal.
  unfold add_assign. cbn [value_bits intinfo.bits].
  rewrite wrap_add_l by lia. apply IH.
Qed.

Lemma samples_ramp (n : nat) (k : Z) (s delta : fixed32_t) :
  in_range 32 (value_bits s) ->
  samples n k s delta = ramp n k (value_bits s) (value_bits delta).
Proof.
  intros Hs. rewrite <- samples_ramp_wrap. f_equal.
  destruct s as [v]. cbn [value_bits] in *.
  rewrite wrap_small by (lia || exact Hs). reflexivity.
Qed.

(** A loop read backwards is the loop from its last source index with
    the opposite step. *)
Lemma rev_ramp_sources (n : nat) (k k' v delta : Z) :
  rev (map snd (ramp n k v delta))
  = map snd (ramp n k' (v + (Z.of_nat n - 1) * delta) (- delta)).
Proof.
  revert k'. induction n as [ | n IH]; intros k'; [reflexivity | ].
  rewrite ramp_snoc, map_app, rev_app_distr. cbn [map rev app snd].
  rewrite (IH (k' + 1)), ramp_S. cbn [map snd]. f_equal.
  - do 2 f_equal. lia.
  - unfold ramp. rewrite !map_map. apply map_ext. intros j. cbn [snd].
    do 2 f_equal. lia.
Qed.

Lemma ramp_indices (n : nat) (k v delta v' delta' : Z) :
  map fst (ramp n k v delta) = map fst (ramp n k v' delta').
Proof. unfold ramp. rewrite !map_map. reflexivity. Qed.

(** ** Reversing the destination range *)

Lemma fixed_eta (x : fixed32_t) : x = Fixed (value_bits x).
Proof. destruct x. reflexivity. Qed.

(** The calls of a one-dimensional [scale]. *)
Lemma calls_1d (da db : Z) (sa sb : fixed32_t) (ma mb : Z) :
  well_formed 1 (mkArea [da] [db]) (mkArea [sa] [sb]) (mkArea [ma] [mb]) ->
  calls 1 (mkArea [da] [db]) (mkArea [sa] [sb]) (mkArea [ma] [mb])
  = Ok (map (fun ks => ([ks.1], [ks.2])) (axis_calls da db sa sb ma mb)).
Proof. intros Hwf. rewrite calls_spec by exact Hwf. rewrite grid_1. reflexivity. Qed.

Lemma well_formed_1d (da db : Z) (sa sb : fixed32_t) (ma mb : Z) :
  in_range 32 da -> in_range 32 db ->
  in_range 32 (value_bits sa) -> in_range 32 (value_bits sb) ->
  in_range 32 ma -> in_range 32 mb ->
  well_formed 1 (mkArea [da] [db]) (mkArea [sa] [sb]) (mkArea [ma] [mb]).
Proof. intros. well_formed_by_evaluation. Qed.

(** The step of an axis whose source span is a multiple of its width. *)
Lemma axis_delta_exact (da db : Z) (sa sb : fixed32_t) (q : Z) :
  da <> db ->
  in_range 32 (Z.max da db - Z.min da db) ->
  in_range 32 (value_bits (src_to da db sa sb)
               - value_bits (src_from da db sa sb)) ->
  value_bits (src_to da db sa sb) - value_bits (src_from da db sa sb)
  = q * (Z.max da db - Z.min da db) ->
  axis_delta da db sa sb = Fixed q.
Proof.
  intros Hne Hn Hd Hq. unfold axis_delta.
  rewrite (wrap_small 32 (Z.max da db - Z.min da db)) by (lia || exact Hn).
  rewrite (wrap_small 32 (value_bits _ - value_bits _)) by (lia || exact Hd).
  rewrite Hq, Z.quot_mul by lia. rewrite wrap_small; [reflexivity | lia | ].
  rewrite Hq in Hd.
  assert (Hn0 : 0 < Z.max da db - Z.min da db) by lia.
  revert Hn0 Hn Hd. rewrite !in_range32.
  generalize (Z.max da db - Z.min da db). intros n Hn0 Hn Hd. nia.
Qed.

(** With an ascending destination range, a source span that is a multiple
    of the width, no overflow in either span and a mask that covers the
    range, the call with the endpoints swapped samples the same source
    indices in reverse order, at the same destination indices. *)
Lemma reversed_calls_ascending (da db : Z) (sa sb : fixed32_t) (ma mb : Z) :
  in_range 32 da -> in_range 32 db ->
  in_range 32 (value_bits sa) -> in_range 32 (value_bits sb) ->
  in_range 32 (db - da) ->
  in_range 32 (value_bits sb - value_bits sa) ->
  in_range 32 (value_bits sa - value_bits sb) ->
  da < db ->
  to_int sa <> to_int sb ->
  (db - da | value_bits sb - value_bits sa) ->
  Z.min ma mb <= da -> db <= Z.max ma mb ->
  map snd (axis_calls db da sa sb ma mb)
  = rev (map snd (axis_calls da db sa sb ma mb)) /\
  map fst (axis_calls db da sa sb ma mb)
  = map fst (axis_calls da db sa sb ma mb).
Proof.
  intros Ha Hb Hsa Hsb Hw Hspan Hspan' Hlt Hs [q Hq] Hlo Hhi.
  assert (Hnd : forall x y : Z, x <> y ->
                                equal x y || equal sa sb = false).
  { intros x y Hxy. cbn [equal int_comparable fixed_comparable].
    apply orb_false_intro; apply Z.eqb_neq; assumption. }
  rewrite !axis_calls_covered by (assumption || lia || (apply Hnd; lia)).
  rewrite (Z.max_r da db), (Z.min_l da db), (Z.max_l db da), (Z.min_r db da)
    by lia.
  assert (Hfwd : axis_delta da db sa sb = Fixed q).
  { apply axis_delta_exact; unfold src_from, src_to;
      destruct (Z.gtb_spec da db); try lia;
      rewrite ?Z.max_r, ?Z.min_l by lia; assumption. }
  assert (Hbwd : axis_delta db da sa sb = Fixed (- q)).
  { apply axis_delta_exact; unfold src_from, src_to;
      destruct (Z.gtb_spec db da); try lia;
      rewrite ?Z.max_l, ?Z.min_r by lia; (assumption || lia). }
  assert (Hq0 : q <> 0).
  { intros ->. apply Hs. f_equal. destruct sa, sb. cbn in *. f_equal. lia. }
  rewrite (fixed_eta (axis_start da db sa sb)),
    (fixed_eta (axis_start db da sa sb)).
  rewrite !axis_start_min_max by exact Hs. rewrite Hfwd, Hbwd.
  cbn [value_bits].
  set (n := Z.to_nat (db - da)).
  assert (Hn : Z.of_nat n = db - da) by lia.
  destruct (Z.geb_spec q 0) as [Hpos | Hneg];
    destruct (Z.geb_spec (- q) 0) as [Hpos' | Hneg']; try lia.
  - assert (value_bits sa < value_bits sb) by nia.
    rewrite Z.min_l, Z.max_r by lia.
    rewrite samples_ramp_wrap, samples_ramp by (cbn [value_bits]; assumption).
    cbn [value_bits]. split.
    + rewrite (rev_ramp_sources n da da). f_equal. f_equal; lia.
    + apply ramp_indices.
  - assert (value_bits sb < value_bits sa) by nia.
    rewrite Z.min_r, Z.max_l by lia.
    rewrite samples_ramp_wrap, samples_ramp by (cbn [value_bits]; assumption).
    cbn [value_bits]. split.
    + rewrite (rev_ramp_sources n da da). f_equal. f_equal; lia.
    + apply ramp_indices.
Qed.

(** C3, as it holds on the code: for a one-dimensional call whose
    source span, in fixed-point units, is an exact multiple of the
    destination width (the division of line 336 has no remainder), with
    no overflow in either span and a mask that covers the destination,
    swapping the destination endpoints and keeping the source range makes
    [scale] call the processor at the same destination indices with the
    same source indices in reverse order. *)
Theorem reversed_destination_reverses_sources
    (da db : Z) (sa sb : fixed32_t) (ma mb : Z) :
  in_range 32 da -> in_range 32 db ->
  in_range 32 (value_bits sa) -> in_range 32 (value_bits sb) ->
  in_range 32 ma -> in_range 32 mb ->
  in_range 32 (db - da) -> in_range 32 (da - db) ->
  in_range 32 (value_bits sb - value_bits sa) ->
  in_range 32 (value_bits sa - value_bits sb) ->
  da <> db ->
  to_int sa <> to_int sb ->
  (db - da | value_bits sb - value_bits sa) ->
  Z.min ma mb <= Z.min da db -> Z.max da db <= Z.max ma mb ->
  exists t t' : list (Point Z * Point fixed32_t),
    calls 1 (mkArea [da] [db]) (mkArea [sa] [sb]) (mkArea [ma] [mb]) = Ok t /\
    calls 1 (mkArea [db] [da]) (mkArea [sa] [sb]) (mkArea [ma] [mb]) = Ok t' /\
    map snd t' = rev (map snd t) /\
    map fst t' = map fst t.
Proof.
  intros Ha Hb Hsa Hsb Hma Hmb Hw Hw' Hspan Hspan' Hne Hs Hdiv Hlo Hhi.
  do 2 eexists.
  split; [apply calls_1d, well_formed_1d; assumption | ].
  split; [apply calls_1d, well_formed_1d; assumption | ].
  rewrite !map_map. cbn [fst snd].
  rewrite <- !(map_map snd (fun x : fixed32_t => [x])).
  rewrite <- !(map_map fst (fun k : Z => [k])).
  rewrite <- map_rev.
  destruct (Z.lt_ge_cases da db) as [Hlt | Hge].
  - destruct (reversed_calls_ascending da db sa sb ma mb) as [Hsrc Hdst];
      try (assumption || lia).
    rewrite Hsrc, Hdst. split; reflexivity.
  - destruct (reversed_calls_ascending db da sa sb ma mb) as [Hsrc Hdst];
      try (assumption || lia).
    { destruct Hdiv as [q Hq]. exists (- q). lia. }
    rewrite Hsrc, Hdst, rev_involutive. split; reflexivity.
Qed.

Lemma reversed_destination_reverses_sources_witness :
  exists t t' : list (Point Z * Point fixed32_t),
    calls 1 (mkArea [0] [4]) (mkArea [of_int 0] [of_int 8])
          (mkArea [0] [4]) = Ok t /\
    calls 1 (mkArea [4] [0]) (mkArea [of_int 0] [of_int 8])
          (mkArea [0] [4]) = Ok t' /\
    map snd t' = rev (map snd t) /\
    map fst t' = map fst t.
Proof.
  apply (reversed_destination_reverses_sources 0 4 (of_int 0) (of_int 8) 0 4);
    try by_evaluation.
  exists 65536. reflexivity.
Defined.

(** C3 as stated fails when the division of line 336 leaves a remainder:
    with destination [0,14) and source [0,2) the step is 4681 units of
    [2^-15] and the remainder 2. The unreversed call samples the integer
    source positions 0 (eight times) then 1 (six times); the call with
    the destination endpoints swapped samples 1 (seven times) then 0
    (seven times), which is not the reverse. *)
Lemma reversed_destination_counterexample :
  ~ (forall t t' : list (Point Z * Point fixed32_t),
       calls 1 (mkArea [0] [14]) (mkArea [of_int 0] [of_int 2])
             (mkArea [0] [14]) = Ok t ->
       calls 1 (mkArea [14] [0]) (mkArea [of_int 0] [of_int 2])
             (mkArea [0] [14]) = Ok t' ->
       map (fun dx => map to_int dx.2) t'
       = rev (map (fun dx => map to_int dx.2) t)).
Proof.
  intros H.
  destruct (calls 1 (mkArea [0] [14]) (mkArea [of_int 0] [of_int 2])
                  (mkArea [0] [14])) as [t | e] eqn:Ht;
    [ | vm_compute in Ht; discriminate].
  destruct (calls 1 (mkArea [14] [0]) (mkArea [of_int 0] [of_int 2])
                  (mkArea [0] [14])) as [t' | e] eqn:Ht';
    [ | vm_compute in Ht'; discriminate].
  specialize (H t t' eq_refl eq_refl).
  vm_compute in Ht. injection Ht as <-.
  vm_compute in Ht'. injection Ht' as <-.
  vm_compute in H. discriminate.
Qed.

(** ** Copying with [write] *)

Section Write.

Context {dst_t src_t : Type}.
Variable cast : src_t -> dst_t.
Variable m_src : Z -> src_t.

(** [write] over a loop in closed form: every destination index of the
    loop receives the source element at the integer part of its source
    index, and nothing else is written. *)
Lemma run_write_ramp (n : nat) (k v delta : Z) (m : Z -> dst_t) (z : Z) :
  run (write cast m_src) (map (fun ks => ([ks.1], [ks.2])) (ramp n k v delta))
      m z
  = if (k <=? z) && (z <? k + Z.of_nat n)
    then cast (m_src (Z.shiftr (wrap 32 (v + (z - k) * delta)) 15))
    else m z.
Proof.
  induction n as [ | n IH].
  - change (ramp 0 k v delta) with (@nil (Z * fixed32_t)).
    cbn [map run fold_left].
    destruct (Z.leb_spec k z), (Z.ltb_spec z (k + Z.of_nat 0));
      try reflexivity; lia.
  - rewrite ramp_snoc, map_app, run_app. cbn [map run fold_left fst snd].
    unfold write at 1.
    change ([k + Z.of_nat n] !!! 0%nat) with (k + Z.of_nat n).
    change ([Fixed (wrap 32 (v + Z.of_nat n * delta))] !!! 0%nat)
      with (Fixed (wrap 32 (v + Z.of_nat n * delta)) : fixed32_t).
    destruct (Z.eqb_spec z (k + Z.of_nat n)) as [-> | Hne].
    + destruct (Z.leb_spec k (k + Z.of_nat n)),
        (Z.ltb_spec (k + Z.of_nat n) (k + Z.of_nat (S n))); try lia.
      cbn [andb]. unfold to_int. cbn [value_bits].
      replace (k + Z.of_nat n - k) with (Z.of_nat n) by lia. reflexivity.
    + fold (run (write cast m_src)
                (map (fun ks => ([ks.1], [ks.2])) (ramp n k v delta)) m).
      rewrite IH.
      destruct (Z.leb_spec k z), (Z.ltb_spec z (k + Z.of_nat n)),
        (Z.ltb_spec z (k + Z.of_nat (S n))); try reflexivity; lia.
Qed.

Lemma div_shift (x j : Z) : (x + j * 32768) / 32768 = x / 32768 + j.
Proof. apply Z.div_add. lia. Qed.

(** C1: a one-dimensional [scale] with the processor [write], a
    destination range and a source range of the same width, neither span
    overflowing, and a mask that covers the destination returns, and in
    the destination array it leaves the [j]-th element of the
    destination range holds the [j]-th element of the source range, each
    range counted from its start toward its end; the rest of the array is
    unchanged. For ascending ranges, element [da + j] holds the source
    element at [int(sa) + j]. *)
Theorem scale_write_copies (m_dst : Z -> dst_t)
    (da db : Z) (sa sb : fixed32_t) (ma mb : Z) :
  in_range 32 da -> in_range 32 db ->
  in_range 32 (value_bits sa) -> in_range 32 (value_bits sb) ->
  in_range 32 ma -> in_range 32 mb ->
  da <> db ->
  Z.abs (value_bits sb - value_bits sa) = Z.abs (db - da) * 2 ^ 15 ->
  Z.abs (db - da) < 2 ^ 16 ->
  Z.min ma mb <= Z.min da db -> Z.max da db <= Z.max ma mb ->
  exists m' : Z -> dst_t,
    scale 1 (mkArea [da] [db]) (mkArea [sa] [sb]) (write cast m_src)
          (mkArea [ma] [mb]) m_dst = Ok m' /\
    (forall j : Z, 0 <= j < Z.abs (db - da) ->
       m' (toward da db j)
       = cast (m_src (toward (to_int sa) (to_int sb) j))) /\
    (forall z : Z, ~ (Z.min da db <= z < Z.max da db) -> m' z = m_dst z).
Proof.
  intros Ha Hb Hsa Hsb Hma Hmb Hne Hwidth Hsmall Hlo Hhi.
  change (2 ^ 15) with 32768 in Hwidth. change (2 ^ 16) with 65536 in Hsmall.
  pose proof Ha as Ha'. pose proof Hb as Hb'.
  pose proof Hsa as Hsa'. pose proof Hsb as Hsb'.
  rewrite in_range32 in Ha', Hb', Hsa', Hsb'.
  assert (Hs : to_int sa <> to_int sb).
  { rewrite !to_int_floor by lia. change (2 ^ 15) with 32768.
    destruct (Z.lt_ge_cases (value_bits sa) (value_bits sb)).
    - replace (value_bits sb)
        with (value_bits sa + Z.abs (db - da) * 32768) by lia.
      rewrite div_shift. lia.
    - replace (value_bits sa)
        with (value_bits sb + Z.abs (db - da) * 32768) by lia.
      rewrite div_shift. lia. }
  assert (Hnd : equal da db || equal sa sb = false).
  { cbn [equal int_comparable fixed_comparable].
    apply orb_false_intro; apply Z.eqb_neq; assumption. }
  eexists. split.
  { rewrite scale_spec by (apply well_formed_1d; assumption).
    rewrite grid_1. unfold axis_calls_at. cbn [a b].
    change ([da] !!! 0%nat) with da. change ([db] !!! 0%nat) with db.
    change ([ma] !!! 0%nat) with ma. change ([mb] !!! 0%nat) with mb.
    change ([sa] !!! 0%nat) with sa. change ([sb] !!! 0%nat) with sb.
    rewrite axis_calls_covered by assumption. reflexivity. }
  set (n := Z.to_nat (Z.max da db - Z.min da db)).
  assert (Hn : Z.of_nat n = Z.abs (db - da)) by lia.
  set (q := if value_bits (src_from da db sa sb)
               <? value_bits (src_to da db sa sb)
            then 32768 else - 32768).
  assert (Hdelta : axis_delta da db sa sb = Fixed q).
  { assert (Hspan : Z.abs (value_bits (src_to da db sa sb)
                           - value_bits (src_from da db sa sb))
                    = (Z.max da db - Z.min da db) * 32768).
    { unfold src_from, src_to. destruct (Z.gtb_spec da db); lia. }
    apply axis_delta_exact;
      [assumption | rewrite in_range32; lia | rewrite in_range32; lia | ].
    unfold q.
    destruct (Z.ltb_spec (value_bits (src_from da db sa sb))
                         (value_bits (src_to da db sa sb))); lia. }
  rewrite (fixed_eta (axis_start da db sa sb)).
  rewrite axis_start_min_max by exact Hs. rewrite Hdelta. cbn [value_bits].
  assert (Hramp :
    samples n (Z.min da db)
      (Fixed (if q >=? 0 then Z.min (value_bits sa) (value_bits sb)
              else wrap 32 (Z.max (value_bits sa) (value_bits sb) + q)))
      (Fixed q)
    = ramp n (Z.min da db)
        (if q >=? 0 then Z.min (value_bits sa) (value_bits sb)
         else Z.max (value_bits sa) (value_bits sb) + q) q).
  { destruct (q >=? 0).
    - apply samples_ramp. cbn [value_bits]. rewrite in_range32. lia.
    - apply samples_ramp_wrap. }
  rewrite Hramp. clear Hramp.
  assert (Hti : to_int sa = value_bits sa / 32768 /\
                to_int sb = value_bits sb / 32768).
  { rewrite !to_int_floor by lia. split; reflexivity. }
  destruct Hti as [Htia Htib].
  split.
  - intros j Hj. rewrite run_write_ramp.
    assert (Hz : Z.min da db <= toward da db j
                 < Z.min da db + Z.of_nat n).
    { unfold toward. destruct (Z.ltb_spec da db); lia. }
    destruct (Z.leb_spec (Z.min da db) (toward da db j)),
      (Z.ltb_spec (toward da db j) (Z.min da db + Z.of_nat n)); try lia.
    cbn [andb]. do 2 f_equal. rewrite Z.shiftr_div_pow2 by lia.
    change (2 ^ 15) with 32768. rewrite Htia, Htib.
    unfold q, src_from, src_to, toward.
    destruct (Z.gtb_spec da db) as [Hrev | Hfwd];
      destruct (Z.ltb_spec da db) as [Hlt | Hge]; try lia;
      destruct (Z.lt_ge_cases (value_bits sa) (value_bits sb)) as [Hup | Hdown];
      [ replace (value_bits sb)
          with (value_bits sa + Z.abs (db - da) * 32768) by lia
      | replace (value_bits sb)
          with (value_bits sa + - Z.abs (db - da) * 32768) by lia
      | replace (value_bits sb)
          with (value_bits sa + Z.abs (db - da) * 32768) by lia
      | replace (value_bits sb)
          with (value_bits sa + - Z.abs (db - da) * 32768) by lia ];
      rewrite div_shift;
      repeat match goal with
             | |- context [?x <? ?y] => destruct (Z.ltb_spec x y); try lia
             end;
      cbv iota;
      change (32768 >=? 0) with true; change (- 32768 >=? 0) with false;
      cbv iota;
      match goal with
      | |- wrap 32 ?e / 32768 = _ + j =>
        replace e with (value_bits sa + j * 32768) by lia
      | |- wrap 32 ?e / 32768 = _ - 1 - j =>
        replace e with (value_bits sa + (- 1 - j) * 32768) by lia
      end;
      (rewrite wrap_small by (lia || (rewrite in_range32; lia)));
      rewrite div_shift; lia.
  - intros z Hz. rewrite run_write_ramp.
    destruct (Z.leb_spec (Z.min da db) z),
      (Z.ltb_spec z (Z.min da db + Z.of_nat n)); try reflexivity; lia.
Qed.

End Write.

Lemma scale_write_copies_witness :
  exists m' : Z -> Z,
    scale 1 (mkArea [0] [3]) (mkArea [of_int 5] [of_int 8])
          (write (fun x : Z => x) (fun k : Z => 10 * k))
          (mkArea [0] [3]) (fun _ : Z => 0) = Ok m' /\
    (forall j : Z, 0 <= j < Z.abs (3 - 0) ->
       m' (toward 0 3 j)
       = 10 * toward (to_int (of_int 5 : fixed32_t))
                     (to_int (of_int 8 : fixed32_t)) j) /\
    (forall z : Z, ~ (Z.min 0 3 <= z < Z.max 0 3) -> m' z = 0).
Proof.
  apply (scale_write_copies (fun x : Z => x) (fun k : Z => 10 * k)
           (fun _ : Z => 0) 0 3 (of_int 5) (of_int 8) 0 3);
    by_evaluation.
Defined.

(** A one-dimensional [scale] runs its processor over the calls of its
    one axis. *)
Lemma scale_1d {state : Type}
    (processor : Point Z -> Point fixed32_t -> state -> state) (s : state)
    (da db : Z) (sa sb : fixed32_t) (ma mb : Z) :
  well_formed 1 (mkArea [da] [db]) (mkArea [sa] [sb]) (mkArea [ma] [mb]) ->
  scale 1 (mkArea [da] [db]) (mkArea [sa] [sb]) processor
        (mkArea [ma] [mb]) s
  = Ok (run processor
            (map (fun ks => ([ks.1], [ks.2])) (axis_calls da db sa sb ma mb))
            s).
Proof.
  intros Hwf. rewrite scale_spec by exact Hwf. rewrite grid_1. reflexivity.
Qed.

(** C1 as stated, for ranges of any equal width, fails once the width
    reaches [2^16]: the source span in units of [2^-15] no longer fits
    [int32_t]. With destination [0, 65536) and source [-32768, 32768) the
    span [2^31] wraps to [-2^31], the step of line 336 is -1.0 and the
    start of line 337 is 32767.0: destination element 0 receives the
    source element 32767, the last one of the range, not the first. *)
Lemma scale_write_copies_counterexample :
  ~ (forall (m_src m_dst : Z -> Z) (da db : Z) (sa sb : fixed32_t)
            (ma mb : Z),
       in_range 32 da -> in_range 32 db ->
       in_range 32 (value_bits sa) -> in_range 32 (value_bits sb) ->
       in_range 32 ma -> in_range 32 mb ->
       da <> db ->
       Z.abs (value_bits sb - value_bits sa) = Z.abs (db - da) * 2 ^ 15 ->
       Z.min ma mb <= Z.min da db -> Z.max da db <= Z.max ma mb ->
       exists m' : Z -> Z,
         scale 1 (mkArea [da] [db]) (mkArea [sa] [sb])
               (write (fun x : Z => x) m_src) (mkArea [ma] [mb]) m_dst
         = Ok m' /\
         forall j : Z, 0 <= j < Z.abs (db - da) ->
           m' (toward da db j) = m_src (toward (to_int sa) (to_int sb) j)).
Proof.
  intros H.
  destruct (H (fun k : Z => k) (fun _ : Z => 0) 0 65536
              (of_int (-32768)) (of_int 32768) 0 65536)
    as (m' & Hrun & Hcopy);
    [by_evaluation | by_evaluation | by_evaluation | by_evaluation
     | by_evaluation | by_evaluation | lia | by_evaluation | lia | lia | ].
  rewrite scale_1d in Hrun by (apply well_formed_1d; by_evaluation).
  rewrite axis_calls_covered in Hrun by by_evaluation.
  rewrite samples_ramp in Hrun by by_evaluation.
  apply (f_equal (fun r : result (Z -> Z) =>
                    match r with Ok m => m 0 | Err _ => 0 end)) in Hrun.
  cbv beta iota in Hrun.
  specialize (Hcopy 0 ltac:(lia)).
  change (toward 0 65536 0) with 0 in Hcopy.
  rewrite <- Hrun in Hcopy. clear Hrun.
  rewrite run_write_ramp in Hcopy.
  change (Z.max 0 65536 - Z.min 0 65536) with 65536 in Hcopy.
  rewrite Z2Nat.id in Hcopy by lia.
  vm_compute in Hcopy. discriminate.
Qed.

(** ** The example of the specification

    Destination [0,10), source [0,100), mask [3,7): the calls are those
    of the destination indices 3, 4, 5 and 6, with the source indices
    that the unmasked call has there. *)
Example masked_call_3_7 :
  calls 1 (mkArea [0] [10]) (mkArea [of_int 0] [of_int 100]) (mkArea [3] [7])
  = Ok [ ([3], [of_int 30]); ([4], [of_int 40]);
         ([5], [of_int 50]); ([6], [of_int 60]) ].
Proof. vm_compute. reflexivity. Qed.

(** A source range inside one integer cell is degenerate for [scale]:
    its endpoints convert to the same integer. *)
Example fractional_source_is_degenerate :
  calls 1 (mkArea [0] [4]) (mkArea [fixed32 0 25] [fixed32 0 75])
        (mkArea [0] [4]) = Ok [].
Proof. vm_compute. reflexivity. Qed.

(** * Further properties of the code *)

(** ** Fixed-point arithmetic *)

Lemma wrap_narrow (n m z : Z) : 0 < n <= m -> wrap n (wrap m z) = wrap n z.
Proof.
  intros Hnm. apply wrap_eqm.
  assert (Hdiv : (2 ^ n | 2 ^ m)).
  { exists (2 ^ (m - n)). rewrite <- Z.pow_add_r by lia. f_equal. lia. }
  rewrite <- (Z.mod_mod_divide (wrap m z) (2 ^ m) (2 ^ n)) by exact Hdiv.
  rewrite wrap_mod by lia.
  apply Z.mod_mod_divide, Hdiv.
Qed.

Lemma wrap_sub_l (n x y : Z) : 0 < n -> wrap n (wrap n x - y) = wrap n (x - y).
Proof.
  intros Hn. apply wrap_eqm.
  rewrite <- Zminus_mod_idemp_l, wrap_mod, Zminus_mod_idemp_l by lia.
  reflexivity.
Qed.

Lemma wrap_sub_r (n x y : Z) : 0 < n -> wrap n (x - wrap n y) = wrap n (x - y).
Proof.
  intros Hn. apply wrap_eqm.
  rewrite <- Zminus_mod_idemp_r, wrap_mod, Zminus_mod_idemp_r by lia.
  reflexivity.
Qed.

Lemma fixed_eta_any {bits precision} (x : fixed bits precision) :
  x = Fixed (value_bits x).
Proof. destruct x. reflexivity. Qed.

Lemma bits_pos (bits : intinfo.width) :
  0 < intinfo.bits bits <= arith_bits bits.
Proof. unfold arith_bits. destruct bits; simpl; lia. Qed.

(** The constructor keeps the low [bits] bits of [n * 2^precision]. *)
Lemma of_int_wrap {bits precision} (n : Z) :
  0 <= precision ->
  (of_int n : fixed bits precision)
  = Fixed (wrap (intinfo.bits bits) (n * 2 ^ precision)).
Proof.
  intros Hp. unfold of_int. rewrite Z.shiftl_mul_pow2 by exact Hp.
  rewrite wrap_narrow by apply bits_pos. reflexivity.
Qed.

(** X1: an integer converted to fixed point and back is unchanged, in
    every width, as long as [n << precision] fits the storage type. *)
Theorem of_int_to_int (bits : intinfo.width) (precision n : Z) :
  0 <= precision ->
  in_range (intinfo.bits bits) (n * 2 ^ precision) ->
  to_int (of_int n : fixed bits precision) = n.
Proof.
  intros Hp Hn. rewrite to_int_floor, of_int_exact by assumption.
  apply Z.div_mul. assert (0 < 2 ^ precision) by (apply Z.pow_pos_nonneg; lia).
  lia.
Qed.

Lemma of_int_to_int_witness :
  to_int (of_int (-1234) : fixed intinfo.I32 15) = -1234.
Proof. apply (of_int_to_int intinfo.I32 15 (-1234)); by_evaluation. Defined.

(** X2: addition and subtraction of converted integers are the converted
    sum and difference, with no range condition: all three values wrap in
    the same way. *)
Theorem add_sub_of_int (bits : intinfo.width) (precision x y : Z) :
  0 <= precision ->
  add (of_int x) (of_int y) = (of_int (x + y) : fixed bits precision) /\
  sub (of_int x) (of_int y) = (of_int (x - y) : fixed bits precision).
Proof.
  intros Hp. pose proof (bits_pos bits) as Hb.
  unfold add, sub, add_assign, sub_assign. rewrite !of_int_wrap by exact Hp.
  cbn [value_bits]. split; f_equal.
  - rewrite wrap_add_l, wrap_add_r by lia. f_equal. lia.
  - rewrite wrap_sub_l, wrap_sub_r by lia. f_equal. lia.
Qed.

Lemma add_sub_of_int_witness :
  add (of_int 100) (of_int 27) = (of_int (100 + 27) : fixed intinfo.I8 3) /\
  sub (of_int 100) (of_int 27) = (of_int (100 - 27) : fixed intinfo.I8 3).
Proof. apply (add_sub_of_int intinfo.I8 3 100 27). lia. Defined.

(** X3: subtracting what was added, or adding what was subtracted, gives
    the first operand back, also when the intermediate result wrapped. *)
Theorem add_sub_cancel (bits : intinfo.width) (precision : Z)
    (l r : fixed bits precision) :
  in_range (intinfo.bits bits) (value_bits l) ->
  sub (add l r) r = l /\ add (sub l r) r = l.
Proof.
  intros Hl. pose proof (bits_pos bits) as Hb.
  unfold add, sub, add_assign, sub_assign. cbn [value_bits].
  destruct l as [vl]. cbn [value_bits] in *. split; f_equal.
  - rewrite wrap_sub_l by lia.
    replace (vl + value_bits r - value_bits r) with vl by lia.
    apply wrap_small; [lia | exact Hl].
  - rewrite wrap_add_l by lia.
    replace (vl - value_bits r + value_bits r) with vl by lia.
    apply wrap_small; [lia | exact Hl].
Qed.

Lemma add_sub_cancel_witness :
  sub (add (Fixed 2147483000 : fixed32_t) (Fixed 5000)) (Fixed 5000)
  = Fixed 2147483000 /\
  add (sub (Fixed 2147483000 : fixed32_t) (Fixed 5000)) (Fixed 5000)
  = Fixed 2147483000.
Proof.
  apply (add_sub_cancel intinfo.I32 15 (Fixed 2147483000) (Fixed 5000)).
  by_evaluation.
Defined.

Lemma wide_product (bits : intinfo.width) (x y : Z) :
  bits <> intinfo.I64 ->
  in_range (intinfo.bits bits) x -> in_range (intinfo.bits bits) y ->
  in_range (intinfo.bits (intinfo.next bits)) (x * y).
Proof.
  unfold in_range. intros Hw.
  destruct bits; try congruence; simpl intinfo.bits; simpl intinfo.next;
    match goal with
    | |- context [2 ^ ?e] => let v := eval vm_compute in (2 ^ e) in
                             change (2 ^ e) with v
    end;
    repeat match goal with
    | |- context [2 ^ ?e] => let v := eval vm_compute in (2 ^ e) in
                             change (2 ^ e) with v
    end; intros Hx Hy; nia.
Qed.

Lemma next_bits (bits : intinfo.width) :
  0 < intinfo.bits (intinfo.next bits) <= arith_bits (intinfo.next bits).
Proof. apply bits_pos. Qed.

(** Below 64 bits the widened product never overflows. *)
Lemma mul_value (bits : intinfo.width) (precision : Z)
    (l r : fixed bits precision) :
  bits <> intinfo.I64 ->
  0 <= precision ->
  in_range (intinfo.bits bits) (value_bits l) ->
  in_range (intinfo.bits bits) (value_bits r) ->
  value_bits (mul l r)
  = wrap (intinfo.bits bits) (value_bits l * value_bits r / 2 ^ precision).
Proof.
  intros Hw Hp Hl Hr. pose proof (bits_pos bits) as Hb.
  pose proof (next_bits bits) as Hnb.
  pose proof (wide_product bits _ _ Hw Hl Hr) as Hprod.
  unfold mul, mul_assign. cbn [value_bits].
  rewrite (wrap_small (arith_bits (intinfo.next bits)))
    by (lia || (eapply in_range_mono; [ | exact Hprod]; lia)).
  rewrite (wrap_small (intinfo.bits (intinfo.next bits)))
    by (lia || exact Hprod).
  rewrite Z.shiftr_div_pow2 by exact Hp. reflexivity.
Qed.

(** X4: below 64 bits the widened product never overflows, so the
    multiplication is the floor of the exact product of the two
    representations divided by [2^precision], truncated to the storage
    width; it is exact when that floor fits the storage type. *)
Theorem mul_floor (bits : intinfo.width) (precision : Z)
    (l r : fixed bits precision) :
  bits <> intinfo.I64 ->
  0 <= precision ->
  in_range (intinfo.bits bits) (value_bits l) ->
  in_range (intinfo.bits bits) (value_bits r) ->
  value_bits (mul l r)
  = wrap (intinfo.bits bits) (value_bits l * value_bits r / 2 ^ precision) /\
  (in_range (intinfo.bits bits) (value_bits l * value_bits r / 2 ^ precision) ->
   value_bits (mul l r) = value_bits l * value_bits r / 2 ^ precision).
Proof.
  intros Hw Hp Hl Hr. pose proof (bits_pos bits) as Hb.
  rewrite mul_value by assumption. split; [reflexivity | ].
  intros Hfit. apply wrap_small; [lia | exact Hfit].
Qed.

Lemma mul_floor_witness :
  value_bits (mul (Fixed (-49152) : fixed32_t) (Fixed 81920))
  = wrap 32 (-49152 * 81920 / 2 ^ 15) /\
  (in_range 32 (-49152 * 81920 / 2 ^ 15) ->
   value_bits (mul (Fixed (-49152) : fixed32_t) (Fixed 81920))
   = -49152 * 81920 / 2 ^ 15).
Proof.
  apply (mul_floor intinfo.I32 15 (Fixed (-49152)) (Fixed 81920));
    (discriminate || by_evaluation).
Defined.

(** X5: the product of two converted integers converts back to the
    product of the integers, in every width, when the operands, the wide
    product and the result are representable. *)
Theorem mul_of_int (bits : intinfo.width) (precision x y : Z) :
  0 <= precision ->
  in_range (intinfo.bits bits) (x * 2 ^ precision) ->
  in_range (intinfo.bits bits) (y * 2 ^ precision) ->
  in_range (intinfo.bits (intinfo.next bits))
           (x * 2 ^ precision * (y * 2 ^ precision)) ->
  in_range (intinfo.bits bits) (x * y * 2 ^ precision) ->
  mul (of_int x) (of_int y) = (of_int (x * y) : fixed bits precision) /\
  to_int (mul (of_int x) (of_int y) : fixed bits precision) = x * y.
Proof.
  intros Hp Hx Hy Hwide Hres. pose proof (bits_pos bits) as Hb.
  pose proof (next_bits bits) as Hnb.
  assert (HP : 0 < 2 ^ precision) by (apply Z.pow_pos_nonneg; lia).
  assert (Hmul : mul (of_int x) (of_int y)
                 = (of_int (x * y) : fixed bits precision)).
  { rewrite (fixed_eta_any (of_int (x * y))).
    unfold mul, mul_assign. rewrite !of_int_exact by assumption. f_equal.
    rewrite (wrap_small (arith_bits (intinfo.next bits)))
      by (lia || (eapply in_range_mono; [ | exact Hwide]; lia)).
    rewrite (wrap_small (intinfo.bits (intinfo.next bits)))
      by (lia || exact Hwide).
    rewrite Z.shiftr_div_pow2 by exact Hp.
    replace (x * 2 ^ precision * (y * 2 ^ precision))
      with (x * y * 2 ^ precision * 2 ^ precision) by lia.
    rewrite Z.div_mul by lia. apply wrap_small; [lia | exact Hres]. }
  split; [exact Hmul | ]. rewrite Hmul. apply of_int_to_int; assumption.
Qed.

Lemma mul_of_int_witness :
  mul (of_int (-7)) (of_int 6) = (of_int (-7 * 6) : fixed32_t) /\
  to_int (mul (of_int (-7)) (of_int 6) : fixed32_t) = -7 * 6.
Proof. apply (mul_of_int intinfo.I32 15 (-7) 6); by_evaluation. Defined.

Lemma quot_abs_le (x y : Z) : y <> 0 -> Z.abs (Z.quot x y) <= Z.abs x.
Proof.
  intros Hy. rewrite <- Z.quot_abs by exact Hy.
  rewrite Z.quot_div_nonneg by lia.
  apply Z.div_le_upper_bound; [lia | nia].
Qed.

Lemma wide_shift (bits : intinfo.width) (precision x : Z) :
  bits <> intinfo.I64 ->
  0 <= precision < intinfo.bits bits ->
  in_range (intinfo.bits bits) x ->
  - 2 ^ (arith_bits (intinfo.next bits) - 1) < x * 2 ^ precision
    < 2 ^ (arith_bits (intinfo.next bits) - 1).
Proof.
  intros Hw Hp. unfold in_range.
  assert (HP : 0 < 2 ^ precision <= 2 ^ (intinfo.bits bits - 1)).
  { split; [apply Z.pow_pos_nonneg; lia | apply Z.pow_le_mono_r; lia]. }
  revert HP. generalize (2 ^ precision). intros P.
  destruct bits; try congruence; unfold arith_bits;
    simpl intinfo.bits; simpl intinfo.next; simpl Z.max; simpl Z.sub;
    repeat match goal with
    | |- context [2 ^ ?e] => let v := eval vm_compute in (2 ^ e) in
                             change (2 ^ e) with v
    end; intros HP Hx; nia.
Qed.

(** Below 64 bits the shifted dividend never overflows. *)
Lemma div_value (bits : intinfo.width) (precision : Z)
    (l r : fixed bits precision) :
  bits <> intinfo.I64 ->
  0 <= precision < intinfo.bits bits ->
  in_range (intinfo.bits bits) (value_bits l) ->
  value_bits r <> 0 ->
  div l r
  = Some (Fixed (wrap (intinfo.bits bits)
                      (Z.quot (value_bits l * 2 ^ precision) (value_bits r)))).
Proof.
  intros Hw Hp Hl Hr. pose proof (bits_pos bits) as Hb.
  pose proof (next_bits bits) as Hnb.
  pose proof (wide_shift bits precision _ Hw Hp Hl) as Hwide.
  unfold div, div_assign.
  destruct (Z.eqb_spec (value_bits r) 0) as [H0 | _]; [contradiction | ].
  rewrite Z.shiftl_mul_pow2 by lia.
  set (wide := arith_bits (intinfo.next bits)) in *.
  rewrite (wrap_small wide (value_bits l * 2 ^ precision))
    by (unfold in_range; lia).
  destruct (Z.eqb_spec (value_bits l * 2 ^ precision) (- 2 ^ (wide - 1)))
    as [Hmin | _]; [lia | ].
  cbn [andb]. do 2 f_equal.
  rewrite (wrap_small wide); [reflexivity | lia | ].
  unfold in_range.
  pose proof (quot_abs_le (value_bits l * 2 ^ precision) (value_bits r) Hr).
  lia.
Qed.

(** X6: below 64 bits, with a precision smaller than the width and an
    in-range dividend, the shifted dividend neither overflows the wide
    type nor is its least value, so a zero divisor is the only division
    without a result; with any other divisor the quotient is the exact
    quotient of [l * 2^precision] by [r] truncated toward zero, then
    truncated to the storage width. *)
Theorem div_truncates (bits : intinfo.width) (precision : Z)
    (l r : fixed bits precision) :
  bits <> intinfo.I64 ->
  0 <= precision < intinfo.bits bits ->
  in_range (intinfo.bits bits) (value_bits l) ->
  (div l r = None <-> value_bits r = 0) /\
  (value_bits r <> 0 ->
   div l r
   = Some (Fixed (wrap (intinfo.bits bits)
                       (Z.quot (value_bits l * 2 ^ precision) (value_bits r))))).
Proof.
  intros Hw Hp Hl. split.
  - destruct (Z.eq_dec (value_bits r) 0) as [H0 | Hne].
    + split; [intros _; exact H0 | intros _].
      unfold div, div_assign. rewrite H0. reflexivity.
    + rewrite div_value by assumption.
      split; [discriminate | contradiction].
  - apply div_value; assumption.
Qed.

Lemma div_truncates_witness :
  (div (Fixed (-32768) : fixed32_t) (Fixed 98304) = None <-> 98304 = 0) /\
  div (Fixed (-32768) : fixed32_t) (Fixed 98304)
  = Some (Fixed (wrap 32 (Z.quot (-32768 * 2 ^ 15) 98304))).
Proof.
  destruct (div_truncates intinfo.I32 15 (Fixed (-32768)) (Fixed 98304))
    as [Hnone Hsome]; [discriminate | by_evaluation | by_evaluation | ].
  split; [exact Hnone | ].
  apply Hsome. discriminate.
Defined.

(** X7: multiplying or dividing by the converted integer 1 gives the
    operand back, below 64 bits and with a precision that leaves room for
    the sign and one integer bit. *)
Theorem mul_div_one (bits : intinfo.width) (precision : Z)
    (l : fixed bits precision) :
  bits <> intinfo.I64 ->
  0 <= precision < intinfo.bits bits - 1 ->
  in_range (intinfo.bits bits) (value_bits l) ->
  mul l (of_int 1) = l /\ div l (of_int 1) = Some l.
Proof.
  intros Hw Hp Hl. pose proof (bits_pos bits) as Hb.
  assert (HP : 0 < 2 ^ precision < 2 ^ (intinfo.bits bits - 1)).
  { split; [apply Z.pow_pos_nonneg; lia | apply Z.pow_lt_mono_r; lia]. }
  assert (Hone : value_bits (of_int 1 : fixed bits precision)
                 = 1 * 2 ^ precision).
  { apply of_int_exact; [lia | unfold in_range; lia]. }
  split.
  - rewrite (fixed_eta_any (mul l (of_int 1))), mul_value;
      [ | assumption | lia | assumption | rewrite Hone; unfold in_range; lia ].
    rewrite Hone, Z.mul_1_l, Z.div_mul by lia.
    rewrite wrap_small by (lia || exact Hl). symmetry. apply fixed_eta_any.
  - rewrite div_value; [ | assumption | lia | assumption | rewrite Hone; lia ].
    rewrite Hone, Z.mul_1_l, Z.quot_mul by lia.
    rewrite wrap_small by (lia || exact Hl). f_equal. symmetry.
    apply fixed_eta_any.
Qed.

Lemma mul_div_one_witness :
  mul (Fixed (-114689) : fixed32_t) (of_int 1) = Fixed (-114689) /\
  div (Fixed (-114689) : fixed32_t) (of_int 1) = Some (Fixed (-114689)).
Proof.
  apply (mul_div_one intinfo.I32 15 (Fixed (-114689)));
    (discriminate || by_evaluation).
Defined.

(** ** The decimal constructor [fixed32] *)

(** X8: [fixed32] normalises a decimal numerator of one, two or three
    digits to four digits: [d], [10 d], [100 d] and [1000 d] give the
    same value while they have at most four digits. A leading zero of the
    decimals cannot be written: [fixed32(i, 5)] is [i + 0.5], as
    [fixed32(i, 5000)]. *)
Theorem fixed32_normalizes (i d : Z) :
  (1 <= d < 10 -> fixed32 i d = fixed32 i (1000 * d)) /\
  (10 <= d < 100 -> fixed32 i d = fixed32 i (100 * d)) /\
  (100 <= d < 1000 -> fixed32 i d = fixed32 i (10 * d)).
Proof.
  repeat split; intros Hd; unfold fixed32;
    repeat match goal with
           | |- context [?x <? ?y] => destruct (Z.ltb_spec x y); try lia
           end;
    unfold wrapu; change (2 ^ 16) with 65536;
    rewrite Z.mod_small by lia;
    rewrite (Z.mul_comm d); reflexivity.
Qed.

Lemma fixed32_normalizes_witness :
  fixed32 (-2) 7 = fixed32 (-2) (1000 * 7) /\
  fixed32 (-2) 25 = fixed32 (-2) (100 * 25) /\
  fixed32 (-2) 125 = fixed32 (-2) (10 * 125).
Proof.
  destruct (fixed32_normalizes (-2) 7) as (H1 & _ & _).
  destruct (fixed32_normalizes (-2) 25) as (_ & H2 & _).
  destruct (fixed32_normalizes (-2) 125) as (_ & _ & H3).
  split; [apply H1; lia | split; [apply H2; lia | apply H3; lia] ].
Defined.

(** X9: for a 16-bit integer part [i] and decimals [d] of at most four
    digits, [fixed32 i d] lies in [[i, i + 1)]: its integer part is [i]
    (also for negative [i], to which the decimals are added). Decimals 0
    give exactly [i]; any other decimals give a fraction of at least
    3276 units of [2^-15], just under one tenth. *)
Theorem fixed32_parts (i d : Z) :
  in_range 16 i ->
  0 <= d <= 9999 ->
  to_int (fixed32 i d) = i /\
  i * 2 ^ 15 <= value_bits (fixed32 i d) < (i + 1) * 2 ^ 15 - 1 /\
  (d = 0 -> fixed32 i d = of_int i) /\
  (1 <= d -> i * 2 ^ 15 + 3276 <= value_bits (fixed32 i d)).
Proof.
  intros Hi Hd. change (in_range 16 i) with (- 32768 <= i < 32768) in Hi.
  assert (Hof : value_bits (of_int i : fixed32_t) = i * 32768).
  { apply (of_int_exact (bits := intinfo.I32) (precision := 15)); [lia | ].
    rewrite in_range32. change (2 ^ 15) with 32768. lia. }
  assert (Hval : exists f : Z,
             value_bits (fixed32 i d) = i * 32768 + f /\
             0 <= f < 32767 /\ (d = 0 -> f = 0) /\ (1 <= d -> 3276 <= f)).
  { unfold fixed32. cbn [value_bits]. rewrite Hof.
    change SCALE with 107381. unfold wrapu. change (2 ^ 16) with 65536.
    set (n := if d <? 10 then (d * 1000) mod 65536
              else if d <? 100 then (d * 100) mod 65536
              else if d <? 1000 then (d * 10) mod 65536 else d).
    assert (Hn : 0 <= n <= 9999 /\ (d = 0 -> n = 0) /\ (1 <= d -> 1000 <= n)).
    { unfold n.
      repeat match goal with
             | |- context [?x <? ?y] => destruct (Z.ltb_spec x y)
             end; rewrite ?Z.mod_small by lia; lia. }
    clearbody n. destruct Hn as (Hn & Hn0 & Hn1).
    rewrite (wrap_small 32 (n * 107381)) by (lia || (rewrite in_range32; lia)).
    rewrite Z.shiftr_div_pow2 by lia. change (2 ^ 15) with 32768.
    exists (n * 107381 / 32768).
    assert (Hf : 0 <= n * 107381 / 32768 < 32767).
    { split; [apply Z.div_pos; lia | apply Z.div_lt_upper_bound; lia]. }
    split; [apply wrap_small; [lia | rewrite in_range32; lia] | ].
    split; [exact Hf | split].
    - intros H0. rewrite (Hn0 H0). reflexivity.
    - intros H1. apply Z.div_le_lower_bound; [lia | ]. specialize (Hn1 H1). lia. }
  destruct Hval as (f & Hv & Hf & Hf0 & Hf1).
  change (2 ^ 15) with 32768. rewrite to_int_floor by lia.
  change (2 ^ 15) with 32768. rewrite Hv.
  split; [ | split; [lia | split] ].
  - rewrite Z.add_comm, Z.div_add by lia. rewrite Z.div_small by lia. lia.
  - intros H0. rewrite (fixed_eta (fixed32 i d)), (fixed_eta (of_int i)).
    rewrite Hv, Hof, (Hf0 H0). f_equal. lia.
  - intros H1. specialize (Hf1 H1). lia.
Qed.

Lemma fixed32_parts_witness :
  to_int (fixed32 (-3) 5) = -3 /\
  -3 * 2 ^ 15 <= value_bits (fixed32 (-3) 5) < (-3 + 1) * 2 ^ 15 - 1 /\
  (5 = 0 -> fixed32 (-3) 5 = of_int (-3)) /\
  (1 <= 5 -> -3 * 2 ^ 15 + 3276 <= value_bits (fixed32 (-3) 5)).
Proof. apply (fixed32_parts (-3) 5); by_evaluation. Defined.

(** ** [internal::min] and [internal::max] *)

(** X10: on fixed-point values [internal::min] and [internal::max] order
    by the integer parts. When the integer parts differ they return the
    smaller and the larger value; when the integer parts are equal both
    return their second argument, whatever the fractions are. On
    integers they are the minimum and the maximum. *)
Theorem min_max_by_integer_part (x y : fixed32_t) (m n : Z) :
  (to_int x <> to_int y ->
   value_bits (internal.min x y) = Z.min (value_bits x) (value_bits y) /\
   value_bits (internal.max x y) = Z.max (value_bits x) (value_bits y)) /\
  (to_int x = to_int y -> internal.min x y = y /\ internal.max x y = y) /\
  internal.min m n = Z.min m n /\ internal.max m n = Z.max m n.
Proof.
  split; [ | split; [ | split] ].
  - intros Hne. split; [apply min_fixed | apply max_fixed]; exact Hne.
  - intros Heq. unfold internal.min, internal.max.
    cbn [less greater fixed_comparable]. rewrite Heq.
    rewrite Z.ltb_irrefl. rewrite Z.gtb_ltb, Z.ltb_irrefl. split; reflexivity.
  - unfold internal.min. cbn [less int_comparable].
    destruct (Z.ltb_spec m n); lia.
  - unfold internal.max. cbn [greater int_comparable].
    destruct (Z.gtb_spec m n); lia.
Qed.

Lemma min_max_by_integer_part_witness :
  (value_bits (internal.min (fixed32 2 75) (fixed32 1 25))
   = Z.min (value_bits (fixed32 2 75)) (value_bits (fixed32 1 25)) /\
   value_bits (internal.max (fixed32 2 75) (fixed32 1 25))
   = Z.max (value_bits (fixed32 2 75)) (value_bits (fixed32 1 25))) /\
  (internal.min (fixed32 1 75) (fixed32 1 25) = fixed32 1 25 /\
   internal.max (fixed32 1 25) (fixed32 1 75) = fixed32 1 75).
Proof.
  split.
  - apply (proj1 (min_max_by_integer_part (fixed32 2 75) (fixed32 1 25) 0 0)).
    by_evaluation.
  - split.
    + apply (proj1 (proj2 (min_max_by_integer_part
                             (fixed32 1 75) (fixed32 1 25) 0 0))).
      reflexivity.
    + apply (proj1 (proj2 (min_max_by_integer_part
                             (fixed32 1 25) (fixed32 1 75) 0 0))).
      reflexivity.
Defined.

(** ** More on [scale]: early returns *)

(** X11: the degenerate test of [scale] on the source compares integer
    parts. A source axis whose endpoints have the same integer part makes
    the whole call a no-op, also when the endpoints differ in their
    fractions. *)
Theorem scale_same_integer_part_noop {state : Type} (dimensions : nat)
    (dst : Area Z) (src : Area fixed32_t)
    (processor : Point Z -> Point fixed32_t -> state -> state)
    (mask : Area Z) (s : state) (i : nat) :
  (i < dimensions)%nat ->
  to_int (a src !!! i) = to_int (b src !!! i) ->
  scale dimensions dst src processor mask s = Ok s /\
  calls dimensions dst src mask = Ok [].
Proof.
  intros Hi Heq.
  assert (Hdeg : degenerate dst src i = true).
  { unfold degenerate. cbn [equal fixed_comparable]. rewrite Heq, Z.eqb_refl.
    apply orb_true_r. }
  unfold calls, scale.
  rewrite (prepare_degenerate dimensions dst src mask i Hi Hdeg).
  split; reflexivity.
Qed.

Lemma scale_same_integer_part_noop_witness :
  scale 1 (mkArea [0] [8]) (mkArea [fixed32 3 1] [fixed32 3 9]) record_call
        (mkArea [0] [8]) [] = Ok [] /\
  calls 1 (mkArea [0] [8]) (mkArea [fixed32 3 1] [fixed32 3 9])
        (mkArea [0] [8]) = Ok [].
Proof.
  apply (scale_same_integer_part_noop 1 (mkArea [0] [8])
           (mkArea [fixed32 3 1] [fixed32 3 9]) record_call
           (mkArea [0] [8]) [] 0%nat); [lia | reflexivity].
Defined.




(** ** More on [scale]: symmetries *)

Lemma axis_calls_mask_swap (da db : Z) (sa sb : fixed32_t) (ma mb : Z) :
  axis_calls da db sa sb mb ma = axis_calls da db sa sb ma mb.
Proof. unfold axis_calls. rewrite (Z.min_comm mb), (Z.max_comm mb). reflexivity. Qed.

(** X13: the orientation of the mask does not matter: exchanging the two
    endpoints of the mask leaves the calls of [scale], and so its effect
    with any processor, unchanged. *)
Theorem scale_mask_orientation {state : Type} (dimensions : nat)
    (dst : Area Z) (src : Area fixed32_t)
    (processor : Point Z -> Point fixed32_t -> state -> state)
    (mask : Area Z) (s : state) :
  well_formed dimensions dst src mask ->
  scale dimensions dst src processor (mkArea (b mask) (a mask)) s
  = scale dimensions dst src processor mask s /\
  calls dimensions dst src (mkArea (b mask) (a mask))
  = calls dimensions dst src mask.
Proof.
  intros Hwf.
  assert (Hwf' : well_formed dimensions dst src (mkArea (b mask) (a mask))).
  { destruct Hwf as (H1 & [[? ?] [? ?]] & [[? ?] [? ?]] & [[? ?] [? ?]]).
    repeat split; cbn [a b]; assumption. }
  assert (Hgrid : grid (axis_calls_at dst src (mkArea (b mask) (a mask)))
                       dimensions
                  = grid (axis_calls_at dst src mask) dimensions).
  { apply grid_ext. intros i _. unfold axis_calls_at. cbn [a b].
    apply axis_calls_mask_swap. }
  rewrite !scale_spec, !calls_spec, Hgrid by assumption. split; reflexivity.
Qed.

Lemma scale_mask_orientation_witness :
  scale 1 (mkArea [0] [10]) (mkArea [of_int 0] [of_int 100]) record_call
        (mkArea (b (mkArea [3] [7])) (a (mkArea [3] [7]))) []
  = scale 1 (mkArea [0] [10]) (mkArea [of_int 0] [of_int 100]) record_call
          (mkArea [3] [7]) [] /\
  calls 1 (mkArea [0] [10]) (mkArea [of_int 0] [of_int 100])
        (mkArea (b (mkArea [3] [7])) (a (mkArea [3] [7])))
  = calls 1 (mkArea [0] [10]) (mkArea [of_int 0] [of_int 100])
          (mkArea [3] [7]).
Proof.
  apply (scale_mask_orientation 1 (mkArea [0] [10])
           (mkArea [of_int 0] [of_int 100]) record_call (mkArea [3] [7]) []).
  well_formed_by_evaluation.
Defined.

Lemma src_from_swap (da db : Z) (sa sb : fixed32_t) :
  da <> db -> src_from db da sb sa = src_from da db sa sb.
Proof.
  intros Hne. unfold src_from.
  destruct (Z.gtb_spec db da), (Z.gtb_spec da db); (reflexivity || lia).
Qed.

Lemma src_to_swap (da db : Z) (sa sb : fixed32_t) :
  da <> db -> src_to db da sb sa = src_to da db sa sb.
Proof.
  intros Hne. unfold src_to.
  destruct (Z.gtb_spec db da), (Z.gtb_spec da db); (reflexivity || lia).
Qed.

Lemma axis_calls_both_swap (da db : Z) (sa sb : fixed32_t) (ma mb : Z) :
  in_range 32 da -> in_range 32 db ->
  axis_calls db da sb sa ma mb = axis_calls da db sa sb ma mb.
Proof.
  intros Ha Hb.
  assert (Hsym : equal db da || equal sb sa = equal da db || equal sa sb).
  { cbn [equal int_comparable fixed_comparable].
    rewrite (Z.eqb_sym db), (Z.eqb_sym (to_int sb)). reflexivity. }
  destruct (equal da db || equal sa sb) eqn:Hnd.
  - unfold axis_calls. rewrite Hsym, Hnd. reflexivity.
  - rewrite !axis_calls_normal by (assumption || congruence).
    apply orb_false_elim in Hnd as [Hne _]. apply Z.eqb_neq in Hne.
    unfold axis_start_clipped, axis_start, axis_delta.
    rewrite !src_from_swap, !src_to_swap by exact Hne.
    rewrite (Z.max_comm db), (Z.min_comm db). reflexivity.
Qed.

(** X14: an axis is reversed by its destination endpoints together with
    its source endpoints: exchanging the endpoints of the destination
    area and of the source area at once leaves the calls of [scale], and
    so its effect with any processor, unchanged. *)
Theorem scale_both_reversed {state : Type} (dimensions : nat)
    (dst : Area Z) (src : Area fixed32_t)
    (processor : Point Z -> Point fixed32_t -> state -> state)
    (mask : Area Z) (s : state) :
  well_formed dimensions dst src mask ->
  scale dimensions (mkArea (b dst) (a dst)) (mkArea (b src) (a src))
        processor mask s
  = scale dimensions dst src processor mask s /\
  calls dimensions (mkArea (b dst) (a dst)) (mkArea (b src) (a src)) mask
  = calls dimensions dst src mask.
Proof.
  intros Hwf.
  assert (Hwf' : well_formed dimensions (mkArea (b dst) (a dst))
                             (mkArea (b src) (a src)) mask).
  { destruct Hwf as (H1 & [[? ?] [? ?]] & [[? ?] [? ?]] & [[? ?] [? ?]]).
    repeat split; cbn [a b]; assumption. }
  assert (Hgrid : grid (axis_calls_at (mkArea (b dst) (a dst))
                                      (mkArea (b src) (a src)) mask)
                       dimensions
                  = grid (axis_calls_at dst src mask) dimensions).
  { apply grid_ext. intros i Hi. unfold axis_calls_at. cbn [a b].
    destruct (well_formed_lookup _ _ _ _ i Hwf Hi) as (Ha & Hb & _).
    apply axis_calls_both_swap; assumption. }
  rewrite !scale_spec, !calls_spec, Hgrid by assumption. split; reflexivity.
Qed.

Lemma scale_both_reversed_witness :
  scale 1 (mkArea (b (mkArea [0] [10])) (a (mkArea [0] [10])))
        (mkArea (b (mkArea [of_int 0] [of_int 100]))
                (a (mkArea [of_int 0] [of_int 100])))
        record_call (mkArea [3] [7]) []
  = scale 1 (mkArea [0] [10]) (mkArea [of_int 0] [of_int 100]) record_call
          (mkArea [3] [7]) [] /\
  calls 1 (mkArea (b (mkArea [0] [10])) (a (mkArea [0] [10])))
        (mkArea (b (mkArea [of_int 0] [of_int 100]))
                (a (mkArea [of_int 0] [of_int 100])))
        (mkArea [3] [7])
  = calls 1 (mkArea [0] [10]) (mkArea [of_int 0] [of_int 100])
          (mkArea [3] [7]).
Proof.
  apply (scale_both_reversed 1 (mkArea [0] [10])
           (mkArea [of_int 0] [of_int 100]) record_call (mkArea [3] [7]) []).
  well_formed_by_evaluation.
Defined.

(** ** More on [scale]: the source index of a call *)

Lemma axis_start_in_range (da db : Z) (sa sb : fixed32_t) :
  in_range 32 (value_bits sa) -> in_range 32 (value_bits sb) ->
  in_range 32 (value_bits (axis_start da db sa sb)).
Proof.
  intros Hsa Hsb. unfold axis_start.
  destruct (value_bits (axis_delta da db sa sb) >=? 0).
  - unfold internal.min, src_from, src_to.
    destruct (da >? db); destruct (less _ _); assumption.
  - unfold add, add_assign. cbn [value_bits]. apply wrap_in_range. simpl. lia.
Qed.

(** The calls on an axis that is not degenerate, rejected or not: the
    loop over the clipped range, which is empty when the destination
    range lies outside the mask. *)
Lemma axis_calls_clipped (da db : Z) (sa sb : fixed32_t) (ma mb : Z) :
  in_range 32 da -> in_range 32 db ->
  equal da db || equal sa sb = false ->
  axis_calls da db sa sb ma mb
  = samples (Z.to_nat (Z.min (Z.max da db) (Z.max ma mb)
                       - Z.max (Z.min da db) (Z.min ma mb)))
            (Z.max (Z.min da db) (Z.min ma mb))
            (axis_start_clipped da db sa sb (Z.min ma mb))
            (axis_delta da db sa sb).
Proof.
  intros Ha Hb Hnd. rewrite axis_calls_normal by assumption.
  destruct (Z.ltb_spec (Z.max da db) (Z.min ma mb)),
    (Z.leb_spec (Z.max ma mb) (Z.min da db)); cbn [orb]; try reflexivity;
    match goal with
    | |- [] = samples ?n _ _ _ => replace n with 0%nat by lia; reflexivity
    end.
Qed.

(** On one axis the source index of a call is an affine function of its
    destination index, wrapped to 32 bits, whatever the mask is. *)
Lemma axis_calls_affine (da db : Z) (sa sb : fixed32_t) (ma mb : Z)
    (k : Z) (x : fixed32_t) :
  in_range 32 da -> in_range 32 db ->
  in_range 32 (value_bits sa) -> in_range 32 (value_bits sb) ->
  In (k, x) (axis_calls da db sa sb ma mb) ->
  x = Fixed (wrap 32 (value_bits (axis_start da db sa sb)
                      + (k - Z.min da db)
                        * value_bits (axis_delta da db sa sb))).
Proof.
  intros Ha Hb Hsa Hsb Hin.
  destruct (equal da db || equal sa sb) eqn:Hnd.
  { unfold axis_calls in Hin. rewrite Hnd in Hin. destruct Hin. }
  rewrite <- (axis_calls_filter da db sa sb ma mb (Z.min da db) (Z.max da db))
    in Hin by (assumption || lia).
  apply List.filter_In in Hin as [Hin _].
  rewrite axis_calls_covered in Hin by (assumption || lia).
  rewrite samples_ramp in Hin by (apply axis_start_in_range; assumption).
  unfold ramp in Hin. apply in_map_iff in Hin as (j & [= <- <-] & _).
  replace (Z.min da db + Z.of_nat j - Z.min da db) with (Z.of_nat j) by lia.
  reflexivity.
Qed.



Lemma quot_in_range (x n : Z) :
  0 < n -> in_range 32 x -> in_range 32 (Z.quot x n).
Proof.
  rewrite !in_range32. intros Hn Hx.
  pose proof (Z.quot_rem' x n) as Hq.
  destruct (Z.le_gt_cases 0 x) as [Hpos | Hneg].
  - pose proof (Z.rem_bound_pos x n Hpos Hn). nia.
  - pose proof (Z.rem_bound_pos_neg x n Hn ltac:(lia)). nia.
Qed.

(** The step of an axis without overflow is the truncated quotient of
    the source span by the destination width. *)
Lemma axis_delta_quot (da db : Z) (sa sb : fixed32_t) :
  da <> db ->
  in_range 32 (Z.max da db - Z.min da db) ->
  in_range 32 (value_bits (src_to da db sa sb)
               - value_bits (src_from da db sa sb)) ->
  value_bits (axis_delta da db sa sb)
  = Z.quot (value_bits (src_to da db sa sb)
            - value_bits (src_from da db sa sb))
           (Z.max da db - Z.min da db).
Proof.
  intros Hne Hn Hs. unfold axis_delta. cbn [value_bits].
  rewrite (wrap_small 32 (Z.max da db - Z.min da db)) by (lia || exact Hn).
  rewrite (wrap_small 32 (value_bits _ - value_bits _)) by (lia || exact Hs).
  apply wrap_small; [lia | ]. apply quot_in_range; [lia | exact Hs].
Qed.

(** Without overflow, every source index of an axis lies between the two
    source endpoints: from the smaller one up to, but not including, the
    larger one. *)
Lemma axis_calls_source_bounds (da db : Z) (sa sb : fixed32_t) (ma mb : Z)
    (k : Z) (x : fixed32_t) :
  in_range 32 da -> in_range 32 db ->
  in_range 32 (value_bits sa) -> in_range 32 (value_bits sb) ->
  in_range 32 (db - da) -> in_range 32 (da - db) ->
  in_range 32 (value_bits sb - value_bits sa) ->
  in_range 32 (value_bits sa - value_bits sb) ->
  In (k, x) (axis_calls da db sa sb ma mb) ->
  Z.min (value_bits sa) (value_bits sb) <= value_bits x
    < Z.max (value_bits sa) (value_bits sb).
Proof.
  intros Ha Hb Hsa Hsb Hw Hw' Hs Hs' Hin.
  pose proof (axis_calls_affine _ _ _ _ _ _ _ _ Ha Hb Hsa Hsb Hin) as Hx.
  pose proof (axis_calls_inside _ _ _ _ _ _ _ _ Ha Hb Hin) as [_ Hk].
  destruct (equal da db || equal sa sb) eqn:Hnd.
  { unfold axis_calls in Hin. rewrite Hnd in Hin. destruct Hin. }
  apply orb_false_elim in Hnd as [Hne Hse].
  apply Z.eqb_neq in Hne. apply Z.eqb_neq in Hse.
  cbn [equal int_comparable fixed_comparable] in Hne, Hse.
  assert (Hvne : value_bits sa <> value_bits sb).
  { intros Heq. apply Hse. unfold to_int. rewrite Heq. reflexivity. }
  subst x. cbn [value_bits].
  rewrite axis_start_min_max by exact Hse.
  assert (Hspan : in_range 32 (value_bits (src_to da db sa sb)
                               - value_bits (src_from da db sa sb))).
  { unfold src_to, src_from. destruct (da >? db); assumption. }
  assert (Hwidth : in_range 32 (Z.max da db - Z.min da db)).
  { rewrite in_range32 in *. lia. }
  rewrite (axis_delta_quot da db sa sb Hne Hwidth Hspan).
  assert (Habs : Z.abs (value_bits (src_to da db sa sb)
                        - value_bits (src_from da db sa sb))
                 = Z.max (value_bits sa) (value_bits sb)
                   - Z.min (value_bits sa) (value_bits sb)).
  { unfold src_to, src_from. destruct (da >? db); lia. }
  revert Habs.
  generalize (value_bits (src_to da db sa sb)
              - value_bits (src_from da db sa sb)).
  intros S Habs.
  set (n := Z.max da db - Z.min da db). set (m := k - Z.min da db).
  assert (Hm : 0 <= m < n) by (unfold m, n; lia).
  pose proof (Z.quot_rem' S n) as Hq.
  assert (Hrem : (0 <= S -> 0 <= Z.rem S n < n) /\
                 (S <= 0 -> - n < Z.rem S n <= 0)).
  { split; intros HS.
    - apply Z.rem_bound_pos; lia.
    - apply Z.rem_bound_pos_neg; lia. }
  destruct Hrem as [Hrp Hrn]. set (q := Z.quot S n) in *.
  set (lo := Z.min (value_bits sa) (value_bits sb)) in *.
  set (hi := Z.max (value_bits sa) (value_bits sb)) in *.
  assert (Hlohi : lo < hi) by (unfold lo, hi; lia).
  assert (Hrange : - 2147483648 <= lo /\ hi < 2147483648).
  { rewrite in_range32 in Hsa, Hsb. unfold lo, hi. lia. }
  destruct (Z.geb_spec q 0) as [Hq0 | Hq0].
  - assert (Hmq : 0 <= m * q) by nia.
    assert (Hup : m * q < hi - lo).
    { destruct (Z.le_gt_cases 0 S) as [HS | HS].
      - specialize (Hrp HS). assert (m * q <= (n - 1) * q) by nia.
        destruct (Z.eq_dec q 0) as [-> | Hq1]; [lia | ]. nia.
      - specialize (Hrn ltac:(lia)). assert (q = 0) by nia. subst q. nia. }
    rewrite wrap_small by (lia || (rewrite in_range32; lia)). lia.
  - rewrite wrap_add_l by lia.
    assert (HS : S < 0).
    { destruct (Z.le_gt_cases 0 S) as [HS | HS]; [ | exact HS].
      specialize (Hrp HS). nia. }
    specialize (Hrn ltac:(lia)).
    assert (Hlow : S <= (m + 1) * q) by nia.
    assert (Hneg : (m + 1) * q < 0) by nia.
    replace (hi + q + m * q) with (hi + (m + 1) * q) by lia.
    rewrite wrap_small by (lia || (rewrite in_range32; lia)). lia.
Qed.

(** X16: without overflow in the destination widths and the source
    spans, every source index that [scale] hands to its processor lies,
    on every axis, between the two source endpoints: at least the smaller
    one and below the larger one. The traversal never samples outside the
    source range, whatever the scale factor and the mask are. *)
Theorem source_index_in_range (dimensions : nat) (dst : Area Z)
    (src : Area fixed32_t) (mask : Area Z) :
  well_formed dimensions dst src mask ->
  no_overflow dimensions dst src ->
  exists t : list (Point Z * Point fixed32_t),
    calls dimensions dst src mask = Ok t /\
    Forall (fun dx =>
              forall i : nat, (i < dimensions)%nat ->
                Z.min (value_bits (a src !!! i)) (value_bits (b src !!! i))
                  <= value_bits (dx.2 !!! i)
                  < Z.max (value_bits (a src !!! i))
                          (value_bits (b src !!! i))) t.
Proof.
  intros Hwf Hno. eexists. split; [apply calls_spec, Hwf | ].
  apply List.Forall_forall. intros [d x] Hin i Hi.
  destruct (grid_coords _ _ _ _ Hin) as (_ & _ & Hcoord).
  destruct (well_formed_lookup _ _ _ _ i Hwf Hi) as (Ha & Hb & Hsa & Hsb & _).
  destruct (Hno i Hi) as (Hw & Hw' & Hs & Hs').
  specialize (Hcoord i Hi). unfold axis_calls_at in Hcoord. cbn [fst snd].
  apply (axis_calls_source_bounds (a dst !!! i) (b dst !!! i)
           (a src !!! i) (b src !!! i) (a mask !!! i) (b mask !!! i)
           (d !!! i) (x !!! i)); assumption.
Qed.

Lemma source_index_in_range_witness :
  exists t : list (Point Z * Point fixed32_t),
    calls 1 (mkArea [0] [7]) (mkArea [fixed32 9 5] [of_int 2])
          (mkArea [7] [1]) = Ok t /\
    Forall (fun dx =>
              forall i : nat, (i < 1)%nat ->
                Z.min
                  (value_bits (a (mkArea [fixed32 9 5] [of_int 2]) !!! i))
                  (value_bits (b (mkArea [fixed32 9 5] [of_int 2]) !!! i))
                  <= value_bits (dx.2 !!! i)
                  < Z.max
                      (value_bits (a (mkArea [fixed32 9 5] [of_int 2]) !!! i))
                      (value_bits (b (mkArea [fixed32 9 5] [of_int 2]) !!! i)))
           t.
Proof.
  apply (source_index_in_range 1 (mkArea [0] [7])
           (mkArea [fixed32 9 5] [of_int 2]) (mkArea [7] [1])).
  - well_formed_by_evaluation.
  - intros i Hi. assert (i = 0%nat) as -> by lia. by_evaluation.
Defined.

(** ** More on [scale]: the destination indices of the calls *)

Lemma samples_fst_in (n : nat) (k : Z) (s delta : fixed32_t) (z : Z) :
  In z (map fst (samples n k s delta)) <-> k <= z < k + Z.of_nat n.
Proof.
  revert k s. induction n as [ | n IH]; intros k s; cbn [samples map fst In].
  - lia.
  - rewrite IH. lia.
Qed.

Lemma samples_fst_NoDup (n : nat) (k : Z) (s delta : fixed32_t) :
  NoDup (map fst (samples n k s delta)).
Proof.
  revert k s. induction n as [ | n IH]; intros k s; cbn [samples map fst];
    constructor; [ | apply IH].
  rewrite list_elem_of_In, samples_fst_in. lia.
Qed.

Lemma samples_length (n : nat) (k : Z) (s delta : fixed32_t) :
  length (samples n k s delta) = n.
Proof.
  revert k s. induction n as [ | n IH]; intros k s; cbn [samples length];
    [reflexivity | rewrite IH; reflexivity].
Qed.

Lemma snoc_decompose {X} (l : list X) (n : nat) :
  length l = S n -> exists (l0 : list X) (x : X), l = l0 ++ [x] /\ length l0 = n.
Proof.
  revert n. induction l as [ | y l IH]; intros n Hl; [discriminate | ].
  destruct l as [ | z l].
  - exists [], y. split; [reflexivity | simpl in *; lia].
  - destruct n as [ | n]; [discriminate | ].
    destruct (IH n) as (l0 & x & Heq & Hlen); [simpl in *; lia | ].
    exists (y :: l0), x. rewrite Heq. split; [reflexivity | simpl; lia].
Qed.

(** The destination indices of a nest are the tuples with one
    destination index of every axis. *)
Lemma grid_fst_in (ax : nat -> list (Z * fixed32_t)) (n : nat) (d : Point Z) :
  In d (map fst (grid ax n)) <->
  length d = n /\ forall i : nat, (i < n)%nat -> In (d !!! i) (map fst (ax i)).
Proof.
  split.
  - intros ([d' x] & <- & Hin)%in_map_iff. cbn [fst].
    destruct (grid_coords _ _ _ _ Hin) as (Hd & _ & Hcoord).
    split; [exact Hd | ]. intros i Hi.
    apply in_map_iff. exists (d' !!! i, x !!! i). split; [reflexivity | ].
    apply Hcoord, Hi.
  - revert d. induction n as [ | n IH]; intros d [Hd Hcoord].
    + destruct d; [left; reflexivity | discriminate].
    + destruct (snoc_decompose d n Hd) as (d0 & k & -> & Hd0).
      assert (Hk : In k (map fst (ax n))).
      { specialize (Hcoord n ltac:(lia)).
        rewrite lookup_total_app_r, Hd0, Nat.sub_diag in Hcoord by lia.
        exact Hcoord. }
      assert (Hd0in : In d0 (map fst (grid ax n))).
      { apply IH. split; [exact Hd0 | ]. intros i Hi.
        specialize (Hcoord i ltac:(lia)).
        rewrite lookup_total_app_l in Hcoord by lia. exact Hcoord. }
      apply in_map_iff in Hk as ([k' s] & Hk' & Hks). cbn [fst] in Hk'. subst k'.
      apply in_map_iff in Hd0in as ([d0' x0] & Hd0' & Hdx). cbn [fst] in Hd0'.
      subst d0'.
      apply in_map_iff. exists (d0 ++ [k], x0 ++ [s]). split; [reflexivity | ].
      cbn [grid]. apply in_flat_map. exists (k, s). split; [exact Hks | ].
      apply in_map_iff. exists (d0, x0). split; [reflexivity | exact Hdx].
Qed.

Lemma axis_calls_at_clipped (dimensions : nat) (dst : Area Z)
    (src : Area fixed32_t) (mask : Area Z) (i : nat) :
  well_formed dimensions dst src mask -> (i < dimensions)%nat ->
  degenerate dst src i = false ->
  axis_calls_at dst src mask i
  = samples (Z.to_nat (clip_hi dst mask i - clip_lo dst mask i))
            (clip_lo dst mask i)
            (axis_start_clipped (a dst !!! i) (b dst !!! i)
                                (a src !!! i) (b src !!! i)
                                (Z.min (a mask !!! i) (b mask !!! i)))
            (axis_delta (a dst !!! i) (b dst !!! i)
                        (a src !!! i) (b src !!! i)).
Proof.
  intros Hwf Hi Hnd.
  destruct (well_formed_lookup _ _ _ _ i Hwf Hi) as (Ha & Hb & _).
  unfold axis_calls_at, clip_lo, clip_hi.
  apply axis_calls_clipped; assumption.
Qed.

(** A destination width that fits [int32_t] is the divisor of line 336
    as it stands: positive on an axis with distinct endpoints, so the
    division neither is by zero nor has the divisor -1. *)
Lemma width_fits_divisor (dimensions : nat) (dst : Area Z) (i : nat) :
  width_fits dimensions dst -> (i < dimensions)%nat ->
  a dst !!! i <> b dst !!! i ->
  0 < wrap 32 (Z.max (a dst !!! i) (b dst !!! i)
               - Z.min (a dst !!! i) (b dst !!! i)).
Proof.
  intros Hfits Hi Hne. rewrite wrap_small by (lia || apply Hfits, Hi). lia.
Qed.

(** X17: when no axis is degenerate and no destination width overflows
    [int32_t], the destination indices at which [scale] calls its
    processor are exactly the points of the destination area, put in
    order, that lie inside the mask, put in order: every such point is
    visited and no other. *)
Theorem calls_cover_clipped_box (dimensions : nat) (dst : Area Z)
    (src : Area fixed32_t) (mask : Area Z) :
  well_formed dimensions dst src mask ->
  width_fits dimensions dst ->
  (forall i : nat, (i < dimensions)%nat -> degenerate dst src i = false) ->
  exists t : list (Point Z * Point fixed32_t),
    calls dimensions dst src mask = Ok t /\
    forall d : Point Z,
      In d (map fst t) <->
      length d = dimensions /\
      forall i : nat, (i < dimensions)%nat ->
        clip_lo dst mask i <= d !!! i < clip_hi dst mask i.
Proof.
  intros Hwf _ Hnd. eexists. split; [apply calls_spec, Hwf | ].
  intros d. rewrite grid_fst_in.
  split; intros [Hd Hcoord]; (split; [exact Hd | ]); intros i Hi;
    specialize (Hcoord i Hi);
    rewrite (axis_calls_at_clipped dimensions) in * by auto;
    rewrite samples_fst_in in *; lia.
Qed.

Lemma calls_cover_clipped_box_witness :
  exists t : list (Point Z * Point fixed32_t),
    calls 2 (mkArea [0; 9] [4; 5]) (mkArea [of_int 0; of_int 0]
                                           [of_int 8; of_int 8])
          (mkArea [1; 0] [3; 7]) = Ok t /\
    forall d : Point Z,
      In d (map fst t) <->
      length d = 2%nat /\
      forall i : nat, (i < 2)%nat ->
        clip_lo (mkArea [0; 9] [4; 5]) (mkArea [1; 0] [3; 7]) i <= d !!! i
          < clip_hi (mkArea [0; 9] [4; 5]) (mkArea [1; 0] [3; 7]) i.
Proof.
  apply (calls_cover_clipped_box 2 (mkArea [0; 9] [4; 5])
           (mkArea [of_int 0; of_int 0] [of_int 8; of_int 8])
           (mkArea [1; 0] [3; 7])).
  - well_formed_by_evaluation.
  - intros i Hi.
    destruct i as [ | [ | i] ]; [by_evaluation | by_evaluation | lia].
  - intros i Hi. destruct i as [ | [ | i] ]; [reflexivity | reflexivity | lia].
Defined.

Lemma NoDup_map_snoc (G : list (list Z)) (k : Z) :
  NoDup G -> NoDup (map (fun d => d ++ [k]) G).
Proof.
  induction 1 as [ | d G Hd HG IH]; cbn [map]; constructor; [ | exact IH].
  intros Hin%list_elem_of_In. apply in_map_iff in Hin as (d' & Heq & Hd').
  apply app_inj_tail in Heq as [-> _]. apply Hd, list_elem_of_In, Hd'.
Qed.

Lemma NoDup_app_in {X} (l1 l2 : list X) :
  NoDup l1 -> NoDup l2 -> (forall x : X, In x l1 -> ~ In x l2) ->
  NoDup (l1 ++ l2).
Proof.
  intros H1 H2 Hdisj. apply NoDup_app. split; [exact H1 | split; [ | exact H2] ].
  intros x Hx%list_elem_of_In Hx'%list_elem_of_In. exact (Hdisj x Hx Hx').
Qed.

Lemma NoDup_snoc_product (G : list (list Z)) (K : list Z) :
  NoDup G -> NoDup K ->
  NoDup (flat_map (fun k => map (fun d => d ++ [k]) G) K).
Proof.
  intros HG. induction 1 as [ | k K Hk HK IH]; cbn [flat_map];
    [constructor | ].
  apply NoDup_app_in; [apply NoDup_map_snoc, HG | exact IH | ].
  intros x (d & <- & _)%in_map_iff (k' & Hk' & Hin)%in_flat_map.
  apply in_map_iff in Hin as (d' & Heq & _).
  apply app_inj_tail in Heq as [_ ->]. apply Hk, list_elem_of_In, Hk'.
Qed.

Lemma grid_fst_S (ax : nat -> list (Z * fixed32_t)) (n : nat) :
  map fst (grid ax (S n))
  = flat_map (fun k => map (fun d => d ++ [k]) (map fst (grid ax n)))
             (map fst (ax n)).
Proof.
  cbn [grid]. induction (ax n) as [ | ks l IH]; cbn [flat_map map];
    [reflexivity | ].
  rewrite map_app, IH. f_equal. rewrite !map_map. reflexivity.
Qed.

Lemma grid_fst_NoDup (ax : nat -> list (Z * fixed32_t)) (n : nat) :
  (forall i : nat, (i < n)%nat -> NoDup (map fst (ax i))) ->
  NoDup (map fst (grid ax n)).
Proof.
  induction n as [ | n IH]; intros Hax.
  - cbn. repeat constructor. intros H%list_elem_of_In. destruct H.
  - rewrite grid_fst_S. apply NoDup_snoc_product.
    + apply IH. intros i Hi. apply Hax. lia.
    + apply Hax. lia.
Qed.

Lemma grid_length (ax : nat -> list (Z * fixed32_t)) (n : nat) :
  length (grid ax n) = volume (fun i => length (ax i)) n.
Proof.
  induction n as [ | n IH]; [reflexivity | ]. cbn [grid volume].
  rewrite (flat_map_constant_length (c := length (grid ax n)));
    [rewrite IH; reflexivity | ].
  intros ks _. apply length_map.
Qed.

Lemma volume_ext (w1 w2 : nat -> nat) (n : nat) :
  (forall i : nat, (i < n)%nat -> w1 i = w2 i) -> volume w1 n = volume w2 n.
Proof.
  induction n as [ | n IH]; intros Hw; [reflexivity | ]. cbn [volume].
  rewrite (Hw n), IH by (intros; try apply Hw; lia). reflexivity.
Qed.

(** X18: when no axis is degenerate and no destination width overflows
    [int32_t], [scale] calls its processor once for every destination
    index that it visits, never twice, and the number of calls is the
    product over the axes of the widths of the clipped destination
    ranges. *)
Theorem calls_once_each (dimensions : nat) (dst : Area Z)
    (src : Area fixed32_t) (mask : Area Z) :
  well_formed dimensions dst src mask ->
  width_fits dimensions dst ->
  (forall i : nat, (i < dimensions)%nat -> degenerate dst src i = false) ->
  exists t : list (Point Z * Point fixed32_t),
    calls dimensions dst src mask = Ok t /\
    NoDup (map fst t) /\
    length t
    = volume (fun i => Z.to_nat (clip_hi dst mask i - clip_lo dst mask i))
             dimensions.
Proof.
  intros Hwf _ Hnd. eexists. split; [apply calls_spec, Hwf | split].
  - apply grid_fst_NoDup. intros i Hi.
    rewrite (axis_calls_at_clipped dimensions) by auto.
    apply samples_fst_NoDup.
  - rewrite grid_length. apply volume_ext. intros i Hi.
    rewrite (axis_calls_at_clipped dimensions) by auto.
    apply samples_length.
Qed.

Lemma calls_once_each_witness :
  exists t : list (Point Z * Point fixed32_t),
    calls 2 (mkArea [0; 9] [4; 5]) (mkArea [of_int 0; of_int 0]
                                           [of_int 8; of_int 8])
          (mkArea [1; 0] [3; 7]) = Ok t /\
    NoDup (map fst t) /\
    length t
    = volume (fun i => Z.to_nat
                (clip_hi (mkArea [0; 9] [4; 5]) (mkArea [1; 0] [3; 7]) i
                 - clip_lo (mkArea [0; 9] [4; 5]) (mkArea [1; 0] [3; 7]) i))
             2.
Proof.
  apply (calls_once_each 2 (mkArea [0; 9] [4; 5])
           (mkArea [of_int 0; of_int 0] [of_int 8; of_int 8])
           (mkArea [1; 0] [3; 7])).
  - well_formed_by_evaluation.
  - intros i Hi.
    destruct i as [ | [ | i] ]; [by_evaluation | by_evaluation | lia].
  - intros i Hi. destruct i as [ | [ | i] ]; [reflexivity | reflexivity | lia].
Defined.

(** ** More on [write] *)

Section WriteBounds.

Context {dst_t src_t : Type}.
Variable cast : src_t -> dst_t.
Variable m_src m_src' : Z -> src_t.

Lemma run_cons {state} (processor : Point Z -> Point fixed32_t -> state -> state)
    (dx : Point Z * Point fixed32_t) (t : list (Point Z * Point fixed32_t))
    (s : state) :
  run processor (dx :: t) s = run processor t (processor dx.1 dx.2 s).
Proof. reflexivity. Qed.

(** [write] changes the destination array only at the destination
    indices of its calls. *)
Lemma run_write_untouched (t : list (Point Z * Point fixed32_t))
    (m : Z -> dst_t) (z : Z) :
  (forall dx, In dx t -> dx.1 !!! 0%nat <> z) ->
  run (write cast m_src) t m z = m z.
Proof.
  revert m. induction t as [ | dx t IH]; intros m Hz; [reflexivity | ].
  rewrite run_cons, IH by (intros dx' Hin; apply Hz; right; exact Hin).
  unfold write. destruct (Z.eqb_spec z (dx.1 !!! 0%nat)) as [Heq | _];
    [ | reflexivity].
  exfalso. apply (Hz dx); [left; reflexivity | congruence].
Qed.

(** [write] reads the source array only at the integer parts of the
    source indices of its calls. *)
Lemma run_write_ext (t : list (Point Z * Point fixed32_t))
    (m m' : Z -> dst_t) :
  (forall dx, In dx t ->
     m_src (to_int (dx.2 !!! 0%nat)) = m_src' (to_int (dx.2 !!! 0%nat))) ->
  (forall z : Z, m z = m' z) ->
  forall z : Z, run (write cast m_src) t m z = run (write cast m_src') t m' z.
Proof.
  revert m m'. induction t as [ | dx t IH]; intros m m' Hsrc Hm z;
    [apply Hm | ].
  rewrite !run_cons. apply IH.
  - intros dx' Hin. apply Hsrc. right. exact Hin.
  - intros z'. unfold write. rewrite (Hsrc dx) by (left; reflexivity).
    rewrite Hm. reflexivity.
Qed.

Lemma scale_write_1d (m_src0 : Z -> src_t) (m_dst : Z -> dst_t)
    (da db : Z) (sa sb : fixed32_t) (ma mb : Z) :
  well_formed 1 (mkArea [da] [db]) (mkArea [sa] [sb]) (mkArea [ma] [mb]) ->
  scale 1 (mkArea [da] [db]) (mkArea [sa] [sb]) (write cast m_src0)
        (mkArea [ma] [mb]) m_dst
  = Ok (run (write cast m_src0)
            (map (fun ks => ([ks.1], [ks.2])) (axis_calls da db sa sb ma mb))
            m_dst).
Proof.
  intros Hwf. rewrite scale_spec by exact Hwf. rewrite grid_1. reflexivity.
Qed.


(** X20: without overflow, a one-dimensional [scale] with [write] reads
    the source array only from the integer part of the smaller source
    endpoint up to the integer part of the last fixed-point value below
    the larger one: two source arrays that agree there give the same
    destination array. With integer endpoints [A < B] these are the
    elements [A .. B-1]. *)
Theorem write_reads_source_range (m_dst : Z -> dst_t)
    (da db : Z) (sa sb : fixed32_t) (ma mb : Z) :
  in_range 32 da -> in_range 32 db ->
  in_range 32 (value_bits sa) -> in_range 32 (value_bits sb) ->
  in_range 32 ma -> in_range 32 mb ->
  in_range 32 (db - da) -> in_range 32 (da - db) ->
  in_range 32 (value_bits sb - value_bits sa) ->
  in_range 32 (value_bits sa - value_bits sb) ->
  (forall z : Z,
     Z.shiftr (Z.min (value_bits sa) (value_bits sb)) 15 <= z
       <= Z.shiftr (Z.max (value_bits sa) (value_bits sb) - 1) 15 ->
     m_src z = m_src' z) ->
  exists m1 m2 : Z -> dst_t,
    scale 1 (mkArea [da] [db]) (mkArea [sa] [sb]) (write cast m_src)
          (mkArea [ma] [mb]) m_dst = Ok m1 /\
    scale 1 (mkArea [da] [db]) (mkArea [sa] [sb]) (write cast m_src')
          (mkArea [ma] [mb]) m_dst = Ok m2 /\
    forall z : Z, m1 z = m2 z.
Proof.
  intros Ha Hb Hsa Hsb Hma Hmb Hw Hw' Hs Hs' Hagree. do 2 eexists.
  split; [apply scale_write_1d, well_formed_1d; assumption | ].
  split; [apply scale_write_1d, well_formed_1d; assumption | ].
  apply run_write_ext; [ | reflexivity].
  intros dx ([k x] & <- & Hin)%in_map_iff. cbn [snd].
  change ([x] !!! 0%nat) with x. apply Hagree.
  pose proof (axis_calls_source_bounds _ _ _ _ _ _ _ _
                Ha Hb Hsa Hsb Hw Hw' Hs Hs' Hin) as Hx.
  unfold to_int. rewrite !Z.shiftr_div_pow2 by lia. split.
  - apply Z.div_le_mono; lia.
  - apply Z.div_le_mono; lia.
Qed.

End WriteBounds.


Lemma write_reads_source_range_witness :
  exists m1 m2 : Z -> Z,
    scale 1 (mkArea [0] [8]) (mkArea [of_int 2] [of_int 6])
          (write (fun x : Z => x) (fun k : Z => 10 * k))
          (mkArea [0] [8]) (fun _ : Z => -1) = Ok m1 /\
    scale 1 (mkArea [0] [8]) (mkArea [of_int 2] [of_int 6])
          (write (fun x : Z => x)
                 (fun k : Z => if (2 <=? k) && (k <=? 5) then 10 * k else 77))
          (mkArea [0] [8]) (fun _ : Z => -1) = Ok m2 /\
    forall z : Z, m1 z = m2 z.
Proof.
  apply (write_reads_source_range (fun x : Z => x) (fun k : Z => 10 * k)
           (fun k : Z => if (2 <=? k) && (k <=? 5) then 10 * k else 77)
           (fun _ : Z => -1) 0 8 (of_int 2) (of_int 6) 0 8);
    try by_evaluation.
  intros z. change (Z.shiftr (Z.min (value_bits (of_int 2 : fixed32_t))
                                    (value_bits (of_int 6 : fixed32_t))) 15)
              with 2.
  change (Z.shiftr (Z.max (value_bits (of_int 2 : fixed32_t))
                          (value_bits (of_int 6 : fixed32_t)) - 1) 15)
    with 5.
  intros Hz. destruct (Z.leb_spec 2 z), (Z.leb_spec z 5); (reflexivity || lia).
Defined.

(** ** Splitting a mask *)





(** ** The traversal on its own *)

(** X22: [internal::iterator<dimensions-1, dimensions, processor_t>]
    applied to any area with endpoints in the range of [int32_t] returns:
    every loop ends. It runs the processor over the nest of the loops
    from [a] to [b] on each axis, axis 0 innermost, and when some axis
    has [b <= a] it calls the processor not once. *)
Theorem iterator_traverses {state : Type}
    (processor : Point Z -> Point fixed32_t -> state -> state)
    (dst_area : Area Z) (src_start src_delta : Point fixed32_t)
    (dimensions : nat) (c : internal.cursor (state := state)) :
  (0 < dimensions)%nat ->
  length (internal.dst_index c) = dimensions ->
  length (internal.src_index c) = dimensions ->
  (forall i : nat, (i < dimensions)%nat ->
     in_range 32 (a dst_area !!! i) /\ in_range 32 (b dst_area !!! i)) ->
  exists c' : internal.cursor,
    internal.iterator processor dst_area src_start src_delta
                      (dimensions - 1) c = Ok c' /\
    internal.captured c'
    = run processor (grid (axis_samples dst_area src_start src_delta) dimensions)
          (internal.captured c) /\
    ((exists i : nat, (i < dimensions)%nat /\ b dst_area !!! i <= a dst_area !!! i) ->
     internal.captured c' = internal.captured c).
Proof.
  intros Hpos Hd Hx Hrange.
  destruct (iterator_spec processor dst_area src_start src_delta
              (dimensions - 1)) with (c := c)
    as (c' & Hrun & Hs & _); [ | lia | lia | ].
  { intros i Hi. apply Hrange. lia. }
  replace (S (dimensions - 1)) with dimensions in Hs by lia.
  rewrite !drop_ge, extend_nil in Hs by lia.
  exists c'. split; [exact Hrun | ]. split; [exact Hs | ].
  intros (i & Hi & Hempty). rewrite Hs.
  rewrite (grid_nil _ dimensions i); [reflexivity | exact Hi | ].
  unfold axis_samples.
  replace (Z.to_nat (b dst_area !!! i - a dst_area !!! i)) with 0%nat by lia.
  reflexivity.
Qed.

Lemma iterator_traverses_witness :
  exists c' : internal.cursor,
    internal.iterator record_call (mkArea [0; 5] [3; 7])
                      [of_int 0; of_int 0] [of_int 2; of_int 1]
                      (2 - 1) (internal.Cursor [0; 0] [of_int 0; of_int 0] [])
    = Ok c' /\
    internal.captured c'
    = run record_call
          (grid (axis_samples (mkArea [0; 5] [3; 7])
                              [of_int 0; of_int 0] [of_int 2; of_int 1]) 2)
          [] /\
    ((exists i : nat, (i < 2)%nat /\
        b (mkArea [0; 5] [3; 7]) !!! i <= a (mkArea [0; 5] [3; 7]) !!! i) ->
     internal.captured c' = []).
Proof.
  apply (iterator_traverses record_call (mkArea [0; 5] [3; 7])
           [of_int 0; of_int 0] [of_int 2; of_int 1] 2
           (internal.Cursor [0; 0] [of_int 0; of_int 0] []));
    [lia | reflexivity | reflexivity | ].
  intros [ | [ | i]] Hi; [by_evaluation | by_evaluation | lia].
Defined.

(** ** Resampling with [write] *)

Section Resample.

Context {dst_t src_t : Type}.
Variable cast : src_t -> dst_t.
Variable m_src : Z -> src_t.

(** Over calls with distinct destination indices, the element at the
    destination index of a call holds the source element of that call. *)
Lemma run_write_at (l : list (Z * fixed32_t)) (m : Z -> dst_t)
    (k : Z) (x : fixed32_t) :
  NoDup (map fst l) -> In (k, x) l ->
  run (write cast m_src) (map (fun ks => ([ks.1], [ks.2])) l) m k
  = cast (m_src (to_int x)).
Proof.
  revert m. induction l as [ | [k' x'] l IH]; intros m Hnd Hin;
    [destruct Hin | ].
  cbn [map fst] in Hnd. apply NoDup_cons in Hnd as [Hnotin Hnd].
  cbn [map fst snd]. rewrite run_cons. cbn [fst snd].
  destruct Hin as [[= -> ->] | Hin].
  - rewrite run_write_untouched.
    + unfold write. change ([k] !!! 0%nat) with k. rewrite Z.eqb_refl.
      reflexivity.
    + intros dx ([k1 x1] & <- & Hin1)%in_map_iff. cbn [fst].
      change ([k1] !!! 0%nat) with k1. intros ->. apply Hnotin.
      apply list_elem_of_In, in_map_iff. exists (k, x1).
      split; [reflexivity | exact Hin1].
  - apply IH; assumption.
Qed.

(** An ascending destination range over an ascending source range whose
    span is an exact multiple of the destination width: every element
    of the destination range inside the mask holds the source element at
    the integer part of [sa + (z - da) * step]. *)
Lemma scale_write_exact_step (m_dst : Z -> dst_t)
    (da db : Z) (sa sb : fixed32_t) (ma mb step : Z) :
  in_range 32 da -> in_range 32 db ->
  in_range 32 (value_bits sa) -> in_range 32 (value_bits sb) ->
  in_range 32 ma -> in_range 32 mb ->
  da < db -> 0 < step ->
  in_range 32 (db - da) ->
  in_range 32 (value_bits sb - value_bits sa) ->
  value_bits sb - value_bits sa = step * (db - da) ->
  to_int sa <> to_int sb ->
  exists m' : Z -> dst_t,
    scale 1 (mkArea [da] [db]) (mkArea [sa] [sb]) (write cast m_src)
          (mkArea [ma] [mb]) m_dst = Ok m' /\
    forall z : Z,
      da <= z < db -> Z.min ma mb <= z < Z.max ma mb ->
      m' z = cast (m_src ((value_bits sa + (z - da) * step) / 2 ^ 15)).
Proof.
  intros Ha Hb Hsa Hsb Hma Hmb Hlt Hstep Hw Hs Hexact Hne.
  assert (Hfrom : src_from da db sa sb = sa).
  { unfold src_from. destruct (Z.gtb_spec da db); [lia | reflexivity]. }
  assert (Hto : src_to da db sa sb = sb).
  { unfold src_to. destruct (Z.gtb_spec da db); [lia | reflexivity]. }
  assert (Hdelta : axis_delta da db sa sb = Fixed step).
  { apply axis_delta_exact; rewrite ?Hfrom, ?Hto, ?Z.max_r, ?Z.min_l by lia;
      (lia || assumption). }
  assert (Hnd : equal da db || equal sa sb = false).
  { cbn [equal int_comparable fixed_comparable].
    apply orb_false_intro; apply Z.eqb_neq; [lia | assumption]. }
  eexists. split; [apply scale_write_1d, well_formed_1d; assumption | ].
  intros z Hz Hmask.
  assert (Hin : In z (map fst (axis_calls da db sa sb ma mb))).
  { rewrite axis_calls_clipped by assumption. apply samples_fst_in. lia. }
  apply in_map_iff in Hin as ([k x] & Hk & Hin). cbn [fst] in Hk. subst k.
  rewrite (run_write_at _ _ z x);
    [ | rewrite axis_calls_clipped by assumption; apply samples_fst_NoDup
      | exact Hin ].
  apply axis_calls_affine in Hin; [ | assumption ..].
  rewrite axis_start_min_max, Hdelta in Hin by exact Hne.
  cbn [value_bits] in Hin.
  destruct (Z.geb_spec step 0); [ | lia].
  assert (Hup : value_bits sa < value_bits sb) by nia.
  rewrite (Z.min_l (value_bits sa)), (Z.min_l da db) in Hin by lia.
  assert (Hbound : value_bits sa <= value_bits sa + (z - da) * step
                   < value_bits sb) by nia.
  rewrite wrap_small in Hin by (lia || (unfold in_range in *; lia)).
  subst x. unfold to_int. cbn [value_bits].
  rewrite Z.shiftr_div_pow2 by lia. reflexivity.
Qed.

(** X23: taking every [k]-th element. With an ascending destination
    range [[da, db)] and the source range from the integer [A] to
    [A + k * (db - da)], [k >= 1], both between [- 2 ^ 16] and
    [2 ^ 16] and less than [2 ^ 16] apart, a one-dimensional [scale] with
    [write] stores the source element [A + k * (z - da)] in every
    destination element [z] of the range that is inside the mask. *)
Theorem write_downsamples (m_dst : Z -> dst_t)
    (da db ma mb A k : Z) :
  in_range 32 da -> in_range 32 db ->
  in_range 32 ma -> in_range 32 mb ->
  da < db -> 1 <= k -> k * (db - da) < 2 ^ 16 ->
  - 2 ^ 16 <= A -> A + k * (db - da) < 2 ^ 16 ->
  exists m' : Z -> dst_t,
    scale 1 (mkArea [da] [db])
          (mkArea [of_int A] [of_int (A + k * (db - da))])
          (write cast m_src) (mkArea [ma] [mb]) m_dst = Ok m' /\
    forall z : Z,
      da <= z < db -> Z.min ma mb <= z < Z.max ma mb ->
      m' z = cast (m_src (A + k * (z - da))).
Proof.
  intros Ha Hb Hma Hmb Hlt Hk Hsmall HA HB.
  change (2 ^ 16) with 65536 in *.
  assert (Hspan : 0 < k * (db - da)) by nia.
  assert (HvA : value_bits (of_int A : fixed32_t) = A * 32768).
  { apply (of_int_exact (bits := intinfo.I32) (precision := 15));
      [lia | rewrite in_range32; lia]. }
  assert (HvB : value_bits (of_int (A + k * (db - da)) : fixed32_t)
                = (A + k * (db - da)) * 32768).
  { apply (of_int_exact (bits := intinfo.I32) (precision := 15));
      [lia | rewrite in_range32; lia]. }
  destruct (scale_write_exact_step m_dst da db (of_int A)
              (of_int (A + k * (db - da))) ma mb (k * 32768))
    as (m' & Hrun & Hm'); try assumption;
    rewrite ?HvA, ?HvB, ?in_range32; try nia.
  { rewrite !to_int_floor, HvA, HvB by lia. change (2 ^ 15) with 32768.
    rewrite !Z.div_mul by lia. lia. }
  exists m'. split; [exact Hrun | ]. intros z Hz Hmask.
  rewrite Hm' by assumption. rewrite HvA. do 2 f_equal.
  change (2 ^ 15) with 32768.
  replace (A * 32768 + (z - da) * (k * 32768))
    with ((A + k * (z - da)) * 32768) by lia.
  apply Z.div_mul. lia.
Qed.

(** X24: repeating every element [2 ^ e] times. With an ascending
    destination range of [2 ^ e * n] elements from [da], [0 <= e <= 15],
    and the source range from the integer [A] to [A + n], both between
    [- 2 ^ 16] and [2 ^ 16] and less than [2 ^ 16] apart, a
    one-dimensional [scale] with [write] stores the source element
    [A + (z - da) / 2 ^ e] in every destination element [z] of the range
    that is inside the mask. *)
Theorem write_upsamples_pow2 (m_dst : Z -> dst_t)
    (da ma mb A n e : Z) :
  in_range 32 da -> in_range 32 (da + 2 ^ e * n) ->
  in_range 32 ma -> in_range 32 mb ->
  0 <= e <= 15 -> 1 <= n -> n < 2 ^ 16 ->
  - 2 ^ 16 <= A -> A + n < 2 ^ 16 ->
  exists m' : Z -> dst_t,
    scale 1 (mkArea [da] [da + 2 ^ e * n])
          (mkArea [of_int A] [of_int (A + n)])
          (write cast m_src) (mkArea [ma] [mb]) m_dst = Ok m' /\
    forall z : Z,
      da <= z < da + 2 ^ e * n -> Z.min ma mb <= z < Z.max ma mb ->
      m' z = cast (m_src (A + (z - da) / 2 ^ e)).
Proof.
  intros Ha Hb Hma Hmb He Hn Hsmall HA HB.
  change (2 ^ 16) with 65536 in *.
  assert (Hpe : 0 < 2 ^ e) by (apply Z.pow_pos_nonneg; lia).
  assert (Hsplit : 2 ^ (15 - e) * 2 ^ e = 32768).
  { rewrite <- Z.pow_add_r by lia. replace (15 - e + e) with 15 by lia.
    reflexivity. }
  assert (Hpd : 0 < 2 ^ (15 - e)) by (apply Z.pow_pos_nonneg; lia).
  assert (Hwidth : 0 < 2 ^ e * n) by nia.
  assert (HvA : value_bits (of_int A : fixed32_t) = A * 32768).
  { apply (of_int_exact (bits := intinfo.I32) (precision := 15));
      [lia | rewrite in_range32; lia]. }
  assert (HvB : value_bits (of_int (A + n) : fixed32_t) = (A + n) * 32768).
  { apply (of_int_exact (bits := intinfo.I32) (precision := 15));
      [lia | rewrite in_range32; lia]. }
  assert (Hin32 : - 2147483648 <= da /\ da + 2 ^ e * n < 2147483648).
  { rewrite in_range32 in Ha, Hb. lia. }
  destruct (scale_write_exact_step m_dst da (da + 2 ^ e * n) (of_int A)
              (of_int (A + n)) ma mb (2 ^ (15 - e)))
    as (m' & Hrun & Hm'); try assumption;
    rewrite ?HvA, ?HvB, ?in_range32; try lia.
  { replace (da + 2 ^ e * n - da) with (2 ^ e * n) by lia.
    rewrite Z.mul_assoc, Hsplit. lia. }
  { rewrite !to_int_floor, HvA, HvB by lia. change (2 ^ 15) with 32768.
    rewrite !Z.div_mul by lia. lia. }
  exists m'. split; [exact Hrun | ]. intros z Hz Hmask.
  rewrite Hm' by assumption. rewrite HvA. do 2 f_equal.
  change (2 ^ 15) with 32768.
  rewrite Z.add_comm, Z.div_add by lia. rewrite Z.add_comm. f_equal.
  rewrite <- Hsplit, (Z.mul_comm (z - da)).
  rewrite Z.div_mul_cancel_l by lia. reflexivity.
Qed.

End Resample.

Lemma write_downsamples_witness :
  exists m' : Z -> Z,
    scale 1 (mkArea [0] [4])
          (mkArea [of_int 10] [of_int (10 + 3 * (4 - 0))])
          (write (fun x : Z => x) (fun k : Z => 10 * k))
          (mkArea [1] [9]) (fun _ : Z => -1) = Ok m' /\
    forall z : Z,
      0 <= z < 4 -> Z.min 1 9 <= z < Z.max 1 9 ->
      m' z = 10 * (10 + 3 * (z - 0)).
Proof.
  apply (write_downsamples (fun x : Z => x) (fun k : Z => 10 * k)
           (fun _ : Z => -1) 0 4 1 9 10 3);
    by_evaluation.
Defined.

Lemma write_upsamples_pow2_witness :
  exists m' : Z -> Z,
    scale 1 (mkArea [0] [0 + 2 ^ 2 * 3])
          (mkArea [of_int 5] [of_int (5 + 3)])
          (write (fun x : Z => x) (fun k : Z => 10 * k))
          (mkArea [0] [12]) (fun _ : Z => -1) = Ok m' /\
    forall z : Z,
      0 <= z < 0 + 2 ^ 2 * 3 -> Z.min 0 12 <= z < Z.max 0 12 ->
      m' z = 10 * (5 + (z - 0) / 2 ^ 2).
Proof.
  apply (write_upsamples_pow2 (fun x : Z => x) (fun k : Z => 10 * k)
           (fun _ : Z => -1) 0 0 12 5 3 2);
    by_evaluation.
Defined.
